(** * Iterated Prisoner's Dilemma simulator: a shallow embedding

    The development follows [IteratedPrisonersDilemmaSim.py].  Prisoners are
    Python objects: they live in a heap indexed by references, so that two
    variables naming the same object really share its fields.  Python lists
    of prisoners are lists of references.  The pseudo-random generator is a
    tape of draws with a cursor.  Functions that index a list may raise
    [IndexError]; the computations are written in a state-and-exception
    monad. *)

From Equations Require Import Equations.
From Equations.Prop Require Import Logic.
From stdpp Require Import base list.
From Stdlib Require Import ZArith Lia.

Local Open Scope Z_scope.

(** ** Exceptions and outcomes *)

Inductive exn : Type :=
| IndexError.

Inductive outcome (A : Type) : Type :=
| Returns (a : A)
| Raises (e : exn).
Arguments Returns {A} a.
Arguments Raises {A} e.

Definition obind {A B} (o : outcome A) (k : A -> outcome B) : outcome B :=
  match o with
  | Returns a => k a
  | Raises e => Raises e
  end.

(** [len(l)] *)
Definition len {A} (l : list A) : Z := Z.of_nat (length l).

(** [l[i]] of Python: a negative index counts from the end, an index out of
    range raises [IndexError]. *)
Definition py_index {A} (l : list A) (i : Z) : outcome A :=
  let k := if i <? 0 then i + len l else i in
  if (k <? 0) || (len l <=? k) then Raises IndexError
  else match l !! Z.to_nat k with
       | Some a => Returns a
       | None => Raises IndexError
       end.

(** [range(a, b)] *)
Definition range (a b : Z) : list Z :=
  map (fun k => a + Z.of_nat k) (seq 0 (Z.to_nat (b - a))).

(** ** The payoffs *)

Definition both_rat : Z := 0.
Definition neither_rat : Z := 5.
Definition ratter : Z := 3.
Definition rattee : Z := -1.

(** ** Strategies *)

Inductive Strategy : Type :=
| NICE | GREEDY | TITFORTAT | NICEUNTIL | AVESTRAT | RANSTRAT | RANDOM | USER.

Definition value (s : Strategy) : Z :=
  match s with
  | NICE => 1 | GREEDY => 2 | TITFORTAT => 3 | NICEUNTIL => 4
  | AVESTRAT => 5 | RANSTRAT => 6 | RANDOM => 7 | USER => 8
  end.

(** ** Prisoners *)

Record Prisoner : Type := mkPrisoner {
  strategy : Strategy;
  turns : list bool;
  elim_round : Z;
  final_score : Z;
  elim : bool
}.

(** [Prisoner(strat)] *)
Definition new_prisoner (strat : Strategy) : Prisoner :=
  mkPrisoner strat [] 0 0 false.

Definition add_turns (move : bool) (p : Prisoner) : Prisoner :=
  mkPrisoner (strategy p) (turns p ++ [move]) (elim_round p) (final_score p) (elim p).

Definition reset_turns (p : Prisoner) : Prisoner :=
  mkPrisoner (strategy p) [] (elim_round p) (final_score p) (elim p).

Definition add_to_score (num : Z) (p : Prisoner) : Prisoner :=
  mkPrisoner (strategy p) (turns p) (elim_round p) (final_score p + num) (elim p).

Definition reset_score (p : Prisoner) : Prisoner :=
  mkPrisoner (strategy p) (turns p) (elim_round p) 0 (elim p).

Definition set_elim_round (num : Z) (p : Prisoner) : Prisoner :=
  mkPrisoner (strategy p) (turns p) num (final_score p) true.

Definition eliminated (p : Prisoner) : Prisoner :=
  mkPrisoner (strategy p) (turns p) (elim_round p) (final_score p) true.

(** ** The strategies' decisions *)

(** Truth value of [last_move], which is [None], [True] or [False]. *)
Definition truthy (v : option bool) : bool :=
  match v with
  | Some b => b
  | None => false
  end.

Definition nice_until_not (last_move : option bool) (turns : list bool) : outcome bool :=
  if len turns =? 0 then Returns true
  else if truthy last_move then
    obind (py_index turns (-1)) (fun t =>
    if t then Returns true else Returns false)
  else if len turns =? 1 then Returns false
  else
    obind (py_index turns (-1)) (fun t1 =>
    if t1 then
      obind (py_index turns (-2)) (fun t2 =>
      if t2 then Returns true else Returns false)
    else Returns false).

(** The [for] loop of [average_strategy], over the indices still to visit. *)
Fixpoint average_loop (turns : list bool) (indices : list Z) (ave : Z) : outcome Z :=
  match indices with
  | [] => Returns ave
  | i :: rest =>
      obind (py_index turns i) (fun t =>
      if t then average_loop turns rest (ave + 1)
      else average_loop turns rest (ave - 1))
  end.

Definition average_strategy (turns : list bool) : outcome bool :=
  if len turns =? 0 then Returns true
  else
    obind (average_loop turns (range 0 (len turns)) 0) (fun ave =>
    if ave >=? 0 then Returns true else Returns false).

(** ** The pseudo-random generator

    The generator is a tape of draws and a cursor; every call to [random]
    reads the draw under the cursor and advances it.  Nothing is assumed of
    the tape, so a statement proved for every generator holds for every run. *)

Record rng : Type := mkRng {
  tape : nat -> nat;
  cursor : nat
}.

Definition randbelow (n : nat) (g : rng) : nat * rng :=
  ((tape g (cursor g) mod n)%nat, mkRng (tape g) (S (cursor g))).

(** [x[i], x[j] = x[j], x[i]]; [shuffle] only calls it with both indices in
    range. *)
Definition swap {A} (x : list A) (i j : nat) : list A :=
  match x !! i, x !! j with
  | Some a, Some b => <[j:=a]> (<[i:=b]> x)
  | _, _ => x
  end.

(** [random.shuffle]: for [i] from [len(x) - 1] down to [1], swap [x[i]]
    with [x[randbelow(i + 1)]]. *)
Fixpoint shuffle_from {A} (i : nat) (x : list A) (g : rng) : list A * rng :=
  match i with
  | O => (x, g)
  | S i' =>
      let (j, g') := randbelow (S i) g in
      shuffle_from i' (swap x i j) g'
  end.

Definition shuffle {A} (x : list A) (g : rng) : list A * rng :=
  shuffle_from (length x - 1) x g.

(** ** The world: heap of prisoners and generator *)

Definition loc : Type := nat.

Record World : Type := mkWorld {
  heap : loc -> Prisoner;
  gen : rng
}.

Definition M (A : Type) : Type := World -> outcome (A * World).

Definition ret {A} (a : A) : M A := fun w => Returns (a, w).

Definition bind {A B} (c : M A) (k : A -> M B) : M B :=
  fun w =>
    match c w with
    | Returns (a, w') => k a w'
    | Raises e => Raises e
    end.

Notation "'let*' x ':=' c 'in' k" := (bind c (fun x => k))
  (at level 10, x pattern, c at level 100, k at level 200).
Notation "c ';;' k" := (bind c (fun _ => k))
  (at level 100, k at level 200, right associativity).

Definition lift {A} (o : outcome A) : M A :=
  fun w =>
    match o with
    | Returns a => Returns (a, w)
    | Raises e => Raises e
    end.

(** Reading an attribute of the object at [l]. *)
Definition attr {A} (l : loc) (f : Prisoner -> A) : M A :=
  fun w => Returns (f (heap w l), w).

Definition update (l : loc) (f : Prisoner -> Prisoner) (h : loc -> Prisoner) : loc -> Prisoner :=
  fun l' => if Nat.eqb l' l then f (h l) else h l'.

(** Calling a mutating method on the object at [l]. *)
Definition call (l : loc) (f : Prisoner -> Prisoner) : M unit :=
  fun w => Returns (tt, mkWorld (update l f (heap w)) (gen w)).

(** [random.randint(a, b)]: [a] plus a draw below [b - a + 1]. *)
Definition randint (a b : Z) : M Z :=
  fun w =>
    let (k, g) := randbelow (Z.to_nat (b - a + 1)) (gen w) in
    Returns (a + Z.of_nat k, mkWorld (heap w) g).

(** [random.getrandbits(k)]: a draw below [2 ^ k]. *)
Definition getrandbits (k : nat) : M Z :=
  fun w =>
    let (r, g) := randbelow (2 ^ k) (gen w) in
    Returns (Z.of_nat r, mkWorld (heap w) g).

(** [bool(n)] on an integer *)
Definition bool_of_int (n : Z) : bool := negb (n =? 0).

Definition strategy_to_payoff (strat : Strategy) (turns our_turns : list bool) : M bool :=
  let* last_move := (if len our_turns =? 0 then ret None
                     else let* m := lift (py_index our_turns (-1)) in ret (Some m)) in
  if value strat =? 4 then lift (nice_until_not last_move turns)
  else if value strat =? 5 then lift (average_strategy turns)
  else if value strat =? 6 then
    if len turns =? 0 then ret true
    else let* j := randint 0 (len turns - 1) in lift (py_index turns j)
  else if value strat =? 7 then
    let* r := getrandbits 1 in ret (bool_of_int r)
  else if value strat =? 3 then
    if len turns =? 0 then ret true
    else lift (py_index turns (-1))
  else if value strat =? 1 then ret true
  else ret false.

(** The payoffs of one turn for the two choices: the cascade of tests at the
    end of [dilemma], which adds the first payoff to the score of [prisoner1]
    and then the second to the score of [prisoner2]. *)
Definition payoff (prisoner1_choice prisoner2_choice : bool) : Z * Z :=
  if prisoner1_choice && prisoner2_choice then (neither_rat, neither_rat)
  else if prisoner1_choice then (rattee, ratter)
  else if prisoner2_choice then (ratter, rattee)
  else (both_rat, both_rat).

(** One turn.  A user's choice of [None] is kept by its truth value: the
    program only ever tests a move for truth. *)
Definition dilemma (prisoner1 prisoner2 : loc) (isuser : bool) (userchoice : option bool)
  : M (loc * loc) :=
  let* s1 := attr prisoner1 strategy in
  let* t2 := attr prisoner2 turns in
  let* t1 := attr prisoner1 turns in
  let* prisoner1_choice := strategy_to_payoff s1 t2 t1 in
  let* prisoner2_choice :=
    (if negb isuser then
       let* s2 := attr prisoner2 strategy in
       let* t1 := attr prisoner1 turns in
       let* t2 := attr prisoner2 turns in
       strategy_to_payoff s2 t1 t2
     else ret (truthy userchoice)) in
  call prisoner1 (add_turns prisoner1_choice) ;;
  call prisoner2 (add_turns prisoner2_choice) ;;
  call prisoner1 (add_to_score (fst (payoff prisoner1_choice prisoner2_choice))) ;;
  call prisoner2 (add_to_score (snd (payoff prisoner1_choice prisoner2_choice))) ;;
  ret (prisoner1, prisoner2).

(** The test of the [while] loop of [match]. *)
Definition match_cond (prisoner1 prisoner2 : loc) (elim_num round_max round_num : Z)
  (w : World) : bool :=
  (round_num <=? round_max)
  && (final_score (heap w prisoner1) >? elim_num)
  && (final_score (heap w prisoner2) >? elim_num).

Equations? match_loop (prisoner1 prisoner2 : loc) (elim_num round_max round_num : Z)
  (w : World) : outcome ((loc * loc * Z) * World)
  by wf (Z.to_nat (round_max + 1 - round_num)) lt :=
  match_loop prisoner1 prisoner2 elim_num round_max round_num w
    with inspect (match_cond prisoner1 prisoner2 elim_num round_max round_num w) := {
    | exist _ false _ => Returns ((prisoner1, prisoner2, round_num), w)
    | exist _ true Hc with dilemma prisoner1 prisoner2 false None w := {
      | Raises e => Raises e
      | Returns ((p1, p2), w') =>
          match_loop p1 p2 elim_num round_max (round_num + 1) w' } }.
Proof.
  unfold match_cond in Hc.
  apply andb_prop in Hc as [Hc _]. apply andb_prop in Hc as [Hc _].
  apply Z.leb_le in Hc. lia.
Qed.

(** [match(prisoner1, prisoner2, elim_num, round_max)]; returns the winner
    first. *)
Definition match_ (prisoner1 prisoner2 : loc) (elim_num round_max : Z) : M (loc * loc) :=
  call prisoner1 reset_score ;;
  call prisoner1 reset_turns ;;
  call prisoner2 reset_score ;;
  call prisoner2 reset_turns ;;
  let* (prisoner1, prisoner2, _) := match_loop prisoner1 prisoner2 elim_num round_max 1 in
  let* s1 := attr prisoner1 final_score in
  let* s2 := attr prisoner2 final_score in
  if s1 <=? s2 then
    call prisoner1 eliminated ;;
    ret (prisoner2, prisoner1)
  else
    call prisoner2 eliminated ;;
    ret (prisoner1, prisoner2).

(** ** The bracket *)

(** [random.shuffle(x)], in place: the new content of [x]. *)
Definition random_shuffle {A} (x : list A) : M (list A) :=
  fun w =>
    let (x', g) := shuffle x (gen w) in
    Returns (x', mkWorld (heap w) g).

(** The three lists of [set_up_matches]: the caller's list [prisoners], which
    is shuffled, cleared and refilled in place, and the two local lists. *)
Record Bracket : Type := mkBracket {
  prisoners : list loc;
  current_winners : list loc;
  final_prisoners : list loc
}.

(** The [for] loop of one bracket round, over the indices still to visit. *)
Fixpoint matches_loop (prisoners : list loc) (elim_num round_max : Z) (indices : list Z)
  (current_winners final_prisoners : list loc) : M (list loc * list loc) :=
  match indices with
  | [] => ret (current_winners, final_prisoners)
  | i :: rest =>
      let* a := lift (py_index prisoners i) in
      let* b := lift (py_index prisoners (len prisoners - i - 1)) in
      let* (winner, loser) := match_ a b elim_num round_max in
      matches_loop prisoners elim_num round_max rest
        (current_winners ++ [winner]) (final_prisoners ++ [loser])
  end.

(** The body of the [while] loop of [set_up_matches].  The number of matches,
    [math.floor(len(prisoners)/2)], is the quotient of the length by 2. *)
Definition bracket_round (elim_num round_max : Z) (st : Bracket) : M Bracket :=
  let current_winners : list loc := [] in
  let* prisoners := random_shuffle (prisoners st) in
  let* current_winners :=
    (if len prisoners mod 2 =? 1 then
       let* extra := lift (py_index prisoners (len prisoners / 2)) in
       ret (current_winners ++ [extra])
     else ret current_winners) in
  let* (current_winners, final_prisoners) :=
    matches_loop prisoners elim_num round_max (range 0 (len prisoners / 2))
      current_winners (final_prisoners st) in
  let prisoners : list loc := [] in
  let prisoners := prisoners ++ current_winners in
  ret (mkBracket prisoners current_winners final_prisoners).

(** *** Facts on lengths, needed to see that the bracket's loop ends *)

Lemma bind_Returns {A B} (c : M A) (k : A -> M B) w r :
  bind c k w = Returns r ->
  exists a w1, c w = Returns (a, w1) /\ k a w1 = Returns r.
Proof.
  unfold bind. destruct (c w) as [[a w1]|e]; [|discriminate].
  intros H. exists a, w1. split; [reflexivity|exact H].
Qed.

Lemma ret_Returns {A} (a : A) w r : ret a w = Returns r -> r = (a, w).
Proof. unfold ret. intros H. injection H as <-. reflexivity. Qed.

Lemma swap_length {A} (x : list A) i j : length (swap x i j) = length x.
Proof.
  unfold swap. destruct (x !! i), (x !! j); try reflexivity.
  rewrite !length_insert. reflexivity.
Qed.

Lemma shuffle_from_length {A} i (x : list A) g :
  length (shuffle_from i x g).1 = length x.
Proof.
  revert x g. induction i as [|i IH]; intros x g; [reflexivity|].
  cbn [shuffle_from]. destruct (randbelow (S (S i)) g) as [j g'].
  rewrite IH. apply swap_length.
Qed.

Lemma shuffle_length {A} (x : list A) g : length (shuffle x g).1 = length x.
Proof. apply shuffle_from_length. Qed.

Lemma range_length a b : length (range a b) = Z.to_nat (b - a).
Proof. unfold range. rewrite length_map, length_seq. reflexivity. Qed.

Lemma matches_loop_length prisoners elim_num round_max indices cw fp w cw' fp' w' :
  matches_loop prisoners elim_num round_max indices cw fp w = Returns ((cw', fp'), w') ->
  length cw' = (length cw + length indices)%nat
  /\ length fp' = (length fp + length indices)%nat.
Proof.
  revert cw fp w. induction indices as [|i rest IH]; intros cw fp w H.
  - apply ret_Returns in H. injection H as <- <- <-. cbn. lia.
  - cbn [matches_loop] in H.
    apply bind_Returns in H as (a & w1 & _ & H).
    apply bind_Returns in H as (b & w2 & _ & H).
    apply bind_Returns in H as ([winner loser] & w3 & _ & H).
    apply IH in H. rewrite !length_app in H. cbn in *. lia.
Qed.

Lemma bracket_round_length elim_num round_max st w st' w' :
  bracket_round elim_num round_max st w = Returns (st', w') ->
  prisoners st' = current_winners st'
  /\ length (current_winners st')
     = (length (prisoners st) mod 2 + length (prisoners st) / 2)%nat.
Proof.
  unfold bracket_round. intros H.
  apply bind_Returns in H as (P & w1 & HP & H).
  apply bind_Returns in H as (cw & w2 & Hcw & H).
  apply bind_Returns in H as ([cw' fp'] & w3 & Hloop & H).
  apply ret_Returns in H. injection H as Hst _. subst st'.
  cbn [prisoners current_winners app]. split; [reflexivity|].
  apply matches_loop_length in Hloop as [Hl _].
  rewrite Hl, range_length.
  assert (HlenP : length P = length (prisoners st)).
  { unfold random_shuffle in HP.
    pose proof (shuffle_length (prisoners st) (gen w)) as Hs.
    destruct (shuffle (prisoners st) (gen w)) as [x' g]. injection HP as <- _.
    exact Hs. }
  rewrite <- HlenP. unfold len in *.
  assert (Hdiv : Z.to_nat (Z.of_nat (length P) / 2 - 0) = (length P / 2)%nat).
  { rewrite Z.sub_0_r. change 2 with (Z.of_nat 2). rewrite <- Nat2Z.inj_div.
    apply Nat2Z.id. }
  rewrite Hdiv.
  assert (Hmod : Z.of_nat (length P) mod 2 = Z.of_nat (length P mod 2)).
  { change 2 with (Z.of_nat 2). rewrite <- Nat2Z.inj_mod. reflexivity. }
  rewrite Hmod in Hcw.
  pose proof (Nat.mod_upper_bound (length P) 2 ltac:(lia)) as Hub.
  destruct (Z.of_nat (length P mod 2) =? 1) eqn:E.
  - apply bind_Returns in Hcw as (extra & w4 & _ & Hcw).
    apply ret_Returns in Hcw. injection Hcw as Hcw _. subst cw.
    apply Z.eqb_eq in E. cbn [length app]. lia.
  - apply ret_Returns in Hcw. injection Hcw as Hcw _. subst cw.
    apply Z.eqb_neq in E. cbn [length app]. lia.
Qed.

(** The measure that decreases at every round of the bracket. *)
Definition bracket_measure (st : Bracket) : nat :=
  if 1 <? len (current_winners st) then (length (prisoners st) + 2)%nat else 0%nat.

(** The [while] loop of [set_up_matches]. *)
Equations? matches_while (elim_num round_max : Z) (st : Bracket) (w : World)
  : outcome (Bracket * World) by wf (bracket_measure st) lt :=
  matches_while elim_num round_max st w
    with inspect (1 <? len (current_winners st)) := {
    | exist _ false _ => Returns (st, w)
    | exist _ true Hc with inspect (bracket_round elim_num round_max st w) := {
      | exist _ (Raises e) _ => Raises e
      | exist _ (Returns (st', w')) Hr => matches_while elim_num round_max st' w' } }.
Proof.
  apply bracket_round_length in Hr as [HP Hl].
  unfold bracket_measure. rewrite Hc, HP.
  destruct (1 <? len (current_winners st')) eqn:E; [|lia].
  apply Z.ltb_lt in E. unfold len in E.
  pose proof (Nat.div_mod_eq (length (prisoners st)) 2) as Hdm.
  pose proof (Nat.mod_upper_bound (length (prisoners st)) 2 ltac:(lia)) as Hub.
  lia.
Qed.

(** What a call of [set_up_matches] leaves behind: the list it returns and
    the content of the caller's list, which it has changed in place. *)
Record SetUp : Type := mkSetUp {
  returned : list loc;
  prisoners_after : list loc
}.

Definition set_up_matches (prisoners : list loc) (elim_num round_max : Z) : M SetUp :=
  let final_prisoners : list loc := [] in
  let current_winners : list loc := [] in
  let current_winners := current_winners ++ prisoners in
  let* st := matches_while elim_num round_max
               (mkBracket prisoners current_winners final_prisoners) in
  let 'mkBracket prisoners current_winners final_prisoners := st in
  let* winner := lift (py_index current_winners 0) in
  let final_prisoners := final_prisoners ++ [winner] in
  ret (mkSetUp final_prisoners prisoners).

(** ** Creating prisoners

    The references in use are those below [next]; a new object is built at
    [next]. *)

Record Memory : Type := mkMemory {
  world : World;
  next : loc
}.

(** [Prisoner(strat)]: the reference of the new object and the memory that
    holds it. *)
Definition Prisoner_new (strat : Strategy) (m : Memory) : loc * Memory :=
  (next m,
   mkMemory (mkWorld (update (next m) (fun _ => new_prisoner strat) (heap (world m)))
               (gen (world m)))
     (S (next m))).

(** [add_prisoner(strat, number, prisoners)]: the content of the caller's
    list, which is also the list returned, and the memory. *)
Equations? add_prisoner (strat : Strategy) (number : Z) (prisoners : list loc) (m : Memory)
  : list loc * Memory by wf (Z.to_nat number) lt :=
  add_prisoner strat number prisoners m with inspect (number >? 0) := {
    | exist _ true Hc =>
        add_prisoner strat (number - 1)
          (prisoners ++ [(Prisoner_new strat m).1]) (Prisoner_new strat m).2
    | exist _ false _ => (prisoners, m) }.
Proof. apply Z.gtb_lt in Hc. lia. Qed.

(** The list [types] of [random_prisoner]. *)
Definition types : list Strategy :=
  [NICE; GREEDY; RANDOM; TITFORTAT; RANSTRAT; AVESTRAT; NICEUNTIL].

Definition random_prisoner (m : Memory) : outcome (loc * Memory) :=
  match (let* i := randint 0 6 in lift (py_index types i)) (world m) with
  | Returns (strat, w) => Returns (Prisoner_new strat (mkMemory w (next m)))
  | Raises e => Raises e
  end.

(** The simulation branch of [main], from the numbers typed in, once
    converted by [int], to the list that [set_up_matches] returns; reading the
    input and printing the result are left out. *)
Definition main_simulation
  (num_nice num_greed num_rand num_titfortat num_niceuntil num_ranstrat num_avestrat
     num_rounds elim_num : Z) (m : Memory) : outcome (SetUp * Memory) :=
  let prisoners : list loc := [] in
  let '(prisoners, m) :=
    if num_nice >? 0 then add_prisoner NICE num_nice prisoners m else (prisoners, m) in
  let '(prisoners, m) :=
    if num_greed >? 0 then add_prisoner GREEDY num_greed prisoners m else (prisoners, m) in
  let '(prisoners, m) :=
    if num_rand >? 0 then add_prisoner RANDOM num_rand prisoners m else (prisoners, m) in
  let '(prisoners, m) :=
    if num_titfortat >? 0 then add_prisoner TITFORTAT num_titfortat prisoners m
    else (prisoners, m) in
  let '(prisoners, m) :=
    if num_niceuntil >? 0 then add_prisoner NICEUNTIL num_niceuntil prisoners m
    else (prisoners, m) in
  let '(prisoners, m) :=
    if num_ranstrat >? 0 then add_prisoner RANSTRAT num_ranstrat prisoners m
    else (prisoners, m) in
  let '(prisoners, m) :=
    if num_avestrat >? 0 then add_prisoner AVESTRAT num_avestrat prisoners m
    else (prisoners, m) in
  match set_up_matches prisoners elim_num num_rounds (world m) with
  | Returns (finished_prisoners, w) => Returns (finished_prisoners, mkMemory w (next m))
  | Raises e => Raises e
  end.

(** * Notions used to state the properties *)

(** ** Turns and matches *)

(** The heap after a turn in which the two prisoners chose [c1] and [c2]. *)
Definition turn_heap (p1 p2 : loc) (c1 c2 : bool) (h : loc -> Prisoner) : loc -> Prisoner :=
  update p2 (add_to_score (snd (payoff c1 c2)))
    (update p1 (add_to_score (fst (payoff c1 c2)))
       (update p2 (add_turns c2) (update p1 (add_turns c1) h))).

(** What playing may change in the heap: no prisoner's strategy, elimination
    round or elimination flag, and nothing at all outside [p1] and [p2]. *)
Definition plays (p1 p2 : loc) (h h' : loc -> Prisoner) : Prop :=
  forall l,
    strategy (h' l) = strategy (h l)
    /\ elim_round (h' l) = elim_round (h l)
    /\ elim (h' l) = elim (h l)
    /\ (l <> p1 -> l <> p2 -> h' l = h l).

(** [n] calls of [dilemma] in a row. *)
Fixpoint play_rounds (p1 p2 : loc) (n : nat) (w : World) : outcome World :=
  match n with
  | O => Returns w
  | S k =>
      match dilemma p1 p2 false None w with
      | Returns (_, w') => play_rounds p1 p2 k w'
      | Raises e => Raises e
      end
  end.

(** The heap once [match] has reset its two prisoners. *)
Definition reset_heap (p1 p2 : loc) (h : loc -> Prisoner) : loc -> Prisoner :=
  update p2 reset_turns (update p2 reset_score
    (update p1 reset_turns (update p1 reset_score h))).

Definition reset_world (p1 p2 : loc) (w : World) : World :=
  mkWorld (reset_heap p1 p2 (heap w)) (gen w).

(** The end of [match]: the comparison of the scores, the elimination of
    the loser and the pair returned, winner first. *)
Definition finish (p1 p2 : loc) (w : World) : (loc * loc) * World :=
  if final_score (heap w p1) <=? final_score (heap w p2) then
    ((p2, p1), mkWorld (update p1 eliminated (heap w)) (gen w))
  else
    ((p1, p2), mkWorld (update p2 eliminated (heap w)) (gen w)).

(** ** Rounds of the bracket *)

(** The two prisoners that the [i]-th match of a round opposes. *)
Definition ends (P : list loc) (i : nat) : list loc :=
  match P !! i, P !! (length P - i - 1)%nat with
  | Some a, Some b => [a; b]
  | _, _ => []
  end.

(** The prisoner who sits out a round of an odd number of prisoners. *)
Definition middle (P : list loc) : list loc :=
  if (length P mod 2 =? 1)%nat then
    match P !! (length P / 2)%nat with Some x => [x] | None => [] end
  else [].

(** What a series of matches with the given losers does to the heap: the
    losers are flagged, no other flag changes, and no elimination round and
    no strategy changes. *)
Definition eliminates (losers : list loc) (h h' : loc -> Prisoner) : Prop :=
  (forall l, l ∈ losers -> elim (h' l) = true)
  /\ (forall l, l ∉ losers -> elim (h' l) = elim (h l))
  /\ (forall l, elim_round (h' l) = elim_round (h l))
  /\ (forall l, strategy (h' l) = strategy (h l)).

(** The rounds of a bracket that starts from the prisoners [P]: the lists of
    losers, round after round, and the prisoners left when no round can be
    played.  A round of [n] prisoners plays [n / 2] matches; its survivors
    and its losers together are the prisoners that entered it. *)
Inductive rounds_of : list loc -> list (list loc) -> list loc -> Prop :=
| rounds_done P :
    (length P <= 1)%nat -> rounds_of P [] P
| rounds_step P survivors losers rest last_ones :
    (1 < length P)%nat ->
    survivors ++ losers ≡ₚ P ->
    length losers = (length P / 2)%nat ->
    rounds_of survivors rest last_ones ->
    rounds_of P (losers :: rest) last_ones.

(** ** The matches that a bracket plays *)

(** A call of [match] that has returned: the winner and the loser, as
    returned, and the world that the call has left. *)
Record Played : Type := mkPlayed {
  won : loc;
  lost : loc;
  world_after : World
}.

(** What one pass of the [while] loop of [set_up_matches] does: the list
    [prisoners] as [random.shuffle] leaves it, and the calls of [match], in
    the order of the calls. *)
Record Round : Type := mkRound {
  lineup : list loc;
  results : list Played
}.

(** The calls of [match] of a series of passes, in the order of the calls,
    and their losers, which is what the passes append to [final_prisoners]. *)
Definition played (rounds : list Round) : list Played := flat_map results rounds.

Definition eliminated_in (rounds : list Round) : list loc := map lost (played rounds).

(** The calls of [match] of the [for] loop over the indices given, from the
    world [w]: each call opposes [prisoners[i]] and
    [prisoners[len(prisoners)-i-1]] and starts in the world that the call
    before it has left. *)
Inductive round_trace (elim_num round_max : Z) (prisoners : list loc)
  : list Z -> World -> list Played -> World -> Prop :=
| round_trace_end w :
    round_trace elim_num round_max prisoners [] w [] w
| round_trace_match i rest w a b winner loser w1 rs w' :
    py_index prisoners i = Returns a ->
    py_index prisoners (len prisoners - i - 1) = Returns b ->
    match_ a b elim_num round_max w = Returns ((winner, loser), w1) ->
    round_trace elim_num round_max prisoners rest w1 rs w' ->
    round_trace elim_num round_max prisoners (i :: rest) w
      (mkPlayed winner loser w1 :: rs) w'.

(** The passes of the [while] loop from the prisoners [P] and the world [w]:
    no pass when [len(current_winners) > 1] fails; otherwise the shuffle, the
    matches of the [for] loop over [range(0, floor(len(prisoners)/2))], and
    the passes that follow, played by the prisoner who sat out and the
    winners, in the order in which [current_winners] received them. *)
Inductive bracket_trace (elim_num round_max : Z)
  : list loc -> World -> list Round -> list loc -> World -> Prop :=
| bracket_trace_end P w :
    len P <= 1 ->
    bracket_trace elim_num round_max P w [] P w
| bracket_trace_round P w P1 w0 rs w1 rest last_ones w' :
    1 < len P ->
    random_shuffle P w = Returns (P1, w0) ->
    round_trace elim_num round_max P1 (range 0 (len P1 / 2)) w0 rs w1 ->
    bracket_trace elim_num round_max (middle P1 ++ map won rs) w1 rest last_ones w' ->
    bracket_trace elim_num round_max P w (mkRound P1 rs :: rest) last_ones w'.

(** ** Histories *)

(** The numbers of cooperations and of defections in a history. *)
Definition cooperations (turns : list bool) : nat := count_occ Bool.bool_dec turns true.

Definition defections (turns : list bool) : nat := count_occ Bool.bool_dec turns false.

(** What two histories are worth to their two players: the payoffs of their
    turns, added up. *)
Fixpoint scores (turns1 turns2 : list bool) : Z * Z :=
  match turns1, turns2 with
  | c1 :: rest1, c2 :: rest2 =>
      ((payoff c1 c2).1 + (scores rest1 rest2).1,
       (payoff c1 c2).2 + (scores rest1 rest2).2)
  | _, _ => (0, 0)
  end.

(** The two prisoners have played as many turns each, and their scores are
    what their histories are worth. *)
Definition tallied (p1 p2 : loc) (h : loc -> Prisoner) : Prop :=
  length (turns (h p1)) = length (turns (h p2))
  /\ final_score (h p1) = (scores (turns (h p1)) (turns (h p2))).1
  /\ final_score (h p2) = (scores (turns (h p1)) (turns (h p2))).2.

(** Both prisoners have cooperated [k] times out of [k], for 5 points a
    turn. *)
Definition all_cooperate (p1 p2 : loc) (k : nat) (h : loc -> Prisoner) : Prop :=
  turns (h p1) = replicate k true
  /\ turns (h p2) = replicate k true
  /\ final_score (h p1) = 5 * Z.of_nat k
  /\ final_score (h p2) = 5 * Z.of_nat k.

(** The first prisoner has cooperated [k] times out of [k] with a second
    prisoner who has defected each time. *)
Definition exploited (p1 p2 : loc) (k : nat) (h : loc -> Prisoner) : Prop :=
  turns (h p1) = replicate k true
  /\ turns (h p2) = replicate k false
  /\ final_score (h p1) = - Z.of_nat k
  /\ final_score (h p2) = 3 * Z.of_nat k.

(** The strategies that cooperate as long as the opponent has. *)
Definition never_defects_first (s : Strategy) : bool :=
  match s with
  | NICE | TITFORTAT | NICEUNTIL | AVESTRAT | RANSTRAT => true
  | GREEDY | RANDOM | USER => false
  end.

(** ** Draws *)

(** The generator after one draw. *)
Definition advance (g : rng) : rng := mkRng (tape g) (S (cursor g)).

(** Whether a decision draws from the generator. *)
Definition draws (strat : Strategy) (turns : list bool) : bool :=
  match strat with
  | RANDOM => true
  | RANSTRAT => negb (length turns =? 0)%nat
  | _ => false
  end.

(** ** Populations *)

(** The list [r.1] holds the [t] prisoners created from reference [a] on, in
    the order of their creation; they are as their constructor left them; the
    prisoners below [a] are those of the heap [h] and the generator is [g]. *)
Definition populated (a : loc) (t : nat) (g : rng) (h : loc -> Prisoner)
  (r : list loc * Memory) : Prop :=
  r.1 = seq a t
  /\ next r.2 = (a + t)%nat
  /\ gen (world r.2) = g
  /\ (forall l, (a <= l < a + t)%nat -> exists strat, heap (world r.2) l = new_prisoner strat)
  /\ (forall l, (l < a)%nat -> heap (world r.2) l = h l).

(** ** Reference points *)

(** A world of freshly made prisoners: the one at reference [l] follows the
    [l]-th strategy of the list ([NICE] beyond its end); the generator only
    draws zeros. *)
Definition fresh_world (strats : list Strategy) : World :=
  mkWorld (fun l => new_prisoner (nth l strats NICE)) (mkRng (fun _ => 0%nat) 0).

(** The decision of NiceUntilNot in the words of the specification. *)
Definition NiceUntilNot_spec (ownHistory opponentHistory : list bool) : bool :=
  match last opponentHistory with
  | None => true
  | Some opponent_last =>
      match last ownHistory with
      | Some true => opponent_last
      | _ =>
          if (length opponentHistory =? 1)%nat then false
          else
            match last (removelast opponentHistory) with
            | Some opponent_before => opponent_last && opponent_before
            | None => false
            end
      end
  end.

(** * Properties *)

(** ** Indexing *)

Lemma len_app {A} (l1 l2 : list A) : len (l1 ++ l2) = len l1 + len l2.
Proof. unfold len. rewrite length_app. lia. Qed.

Lemma len_nonneg {A} (l : list A) : 0 <= len l.
Proof. unfold len. lia. Qed.

Lemma py_index_nonneg {A} (l : list A) i :
  0 <= i < len l ->
  exists a, py_index l i = Returns a /\ l !! Z.to_nat i = Some a.
Proof.
  intros Hi. unfold py_index.
  destruct (i <? 0) eqn:E1; [apply Z.ltb_lt in E1; lia|]. rewrite E1. cbn [orb].
  destruct (len l <=? i) eqn:E2; [apply Z.leb_le in E2; lia|].
  destruct (l !! Z.to_nat i) as [a|] eqn:E3.
  - exists a. split; reflexivity.
  - apply lookup_ge_None in E3. unfold len in Hi. lia.
Qed.

Lemma py_index_neg {A} (l : list A) i :
  - len l <= i < 0 ->
  exists a, py_index l i = Returns a /\ l !! Z.to_nat (i + len l) = Some a.
Proof.
  intros Hi. unfold py_index.
  destruct (i <? 0) eqn:E1; [|apply Z.ltb_ge in E1; lia].
  destruct (i + len l <? 0) eqn:E2; [apply Z.ltb_lt in E2; lia|]. cbn [orb].
  destruct (len l <=? i + len l) eqn:E3; [apply Z.leb_le in E3; lia|].
  destruct (l !! Z.to_nat (i + len l)) as [a|] eqn:E4.
  - exists a. split; reflexivity.
  - apply lookup_ge_None in E4. unfold len in *. lia.
Qed.

Lemma py_index_out {A} (l : list A) i :
  i < - len l \/ len l <= i -> py_index l i = Raises IndexError.
Proof.
  intros Hi. unfold py_index. cbv zeta.
  destruct (i <? 0) eqn:E1.
  - apply Z.ltb_lt in E1.
    destruct (i + len l <? 0) eqn:E2; [reflexivity|].
    apply Z.ltb_ge in E2. pose proof (len_nonneg l). lia.
  - rewrite E1. cbn [orb]. apply Z.ltb_ge in E1.
    destruct (len l <=? i) eqn:E2; [reflexivity|].
    apply Z.leb_gt in E2. pose proof (len_nonneg l). lia.
Qed.

Lemma py_index_last {A} (l : list A) a : py_index (l ++ [a]) (-1) = Returns a.
Proof.
  destruct (py_index_neg (l ++ [a]) (-1)) as (b & Hb & Hl).
  { rewrite len_app. unfold len. cbn. lia. }
  rewrite Hb. f_equal.
  rewrite len_app in Hl. unfold len in Hl. cbn [length] in Hl.
  replace (Z.to_nat (-1 + (Z.of_nat (length l) + Z.of_nat 1))) with (length l) in Hl by lia.
  rewrite lookup_app_r in Hl by lia. rewrite Nat.sub_diag in Hl.
  cbn in Hl. congruence.
Qed.

Lemma py_index_last_but_one {A} (l : list A) a b :
  py_index (l ++ [b; a]) (-2) = Returns b.
Proof.
  destruct (py_index_neg (l ++ [b; a]) (-2)) as (c & Hc & Hl).
  { rewrite len_app. unfold len. cbn. lia. }
  rewrite Hc. f_equal.
  rewrite len_app in Hl. unfold len in Hl. cbn [length] in Hl.
  replace (Z.to_nat (-2 + (Z.of_nat (length l) + Z.of_nat 2))) with (length l) in Hl by lia.
  rewrite lookup_app_r in Hl by lia. rewrite Nat.sub_diag in Hl.
  cbn in Hl. congruence.
Qed.

Lemma py_index_head {A} (l : list A) a : py_index (a :: l) 0 = Returns a.
Proof.
  destruct (py_index_nonneg (a :: l) 0) as (b & Hb & Hl).
  { unfold len. cbn [length]. lia. }
  rewrite Hb. change (Some a = Some b) in Hl. congruence.
Qed.

(** ** The strategies never raise *)

Lemma nice_until_not_returns last_move turns :
  exists b, nice_until_not last_move turns = Returns b.
Proof.
  unfold nice_until_not.
  destruct (len turns =? 0) eqn:E0; [eauto|]. apply Z.eqb_neq in E0.
  pose proof (len_nonneg turns) as Hn.
  destruct (py_index_neg turns (-1)) as (a & Ha & _); [lia|]. rewrite Ha. cbn [obind].
  destruct (truthy last_move).
  - destruct a; eauto.
  - destruct (len turns =? 1) eqn:E1; [eauto|]. apply Z.eqb_neq in E1.
    destruct (py_index_neg turns (-2)) as (b & Hb & _); [lia|]. rewrite Hb. cbn [obind].
    destruct a, b; eauto.
Qed.

Lemma average_loop_returns turns indices ave :
  Forall (fun i => 0 <= i < len turns) indices ->
  exists n, average_loop turns indices ave = Returns n.
Proof.
  intros H. revert ave. induction H as [|i rest Hi _ IH]; intros ave; cbn [average_loop].
  - eauto.
  - destruct (py_index_nonneg turns i Hi) as (a & Ha & _). rewrite Ha. cbn [obind].
    destruct a; apply IH.
Qed.

Lemma range_bounds a b : Forall (fun i => a <= i < b) (range a b).
Proof.
  unfold range. apply Forall_forall. intros i Hi.
  apply list_elem_of_In, in_map_iff in Hi as (k & <- & Hk).
  apply in_seq in Hk. lia.
Qed.

Lemma average_strategy_returns turns : exists b, average_strategy turns = Returns b.
Proof.
  unfold average_strategy. destruct (len turns =? 0); [eauto|].
  destruct (average_loop_returns turns (range 0 (len turns)) 0 (range_bounds _ _))
    as (n & Hn).
  rewrite Hn. cbn [obind]. destruct (n >=? 0); eauto.
Qed.

Lemma randbelow_lt n g : (0 < n)%nat -> ((randbelow n g).1 < n)%nat.
Proof. intros Hn. cbn. apply Nat.mod_upper_bound. lia. Qed.

(** A decision always returns a move; it leaves the heap alone and can only
    advance the generator. *)
Lemma strategy_to_payoff_returns strat turns our_turns w :
  exists b g, strategy_to_payoff strat turns our_turns w = Returns (b, mkWorld (heap w) g).
Proof.
  assert (Hw : w = mkWorld (heap w) (gen w)) by (destruct w; reflexivity).
  assert (Hlast : exists lm,
    (if len our_turns =? 0 then ret None
     else let* m := lift (py_index our_turns (-1)) in ret (Some m)) w = Returns (lm, w)).
  { destruct (len our_turns =? 0) eqn:E; [eexists; reflexivity|].
    apply Z.eqb_neq in E. pose proof (len_nonneg our_turns).
    destruct (py_index_neg our_turns (-1)) as (a & Ha & _); [lia|].
    exists (Some a). unfold bind, lift. rewrite Ha. reflexivity. }
  destruct Hlast as (lm & Hlm).
  unfold strategy_to_payoff. unfold bind at 1. rewrite Hlm.
  destruct strat; cbn [value Z.eqb Pos.eqb].
  - exists true, (gen w). rewrite Hw at 1. reflexivity.
  - exists false, (gen w). rewrite Hw at 1. reflexivity.
  - destruct (len turns =? 0) eqn:E; [exists true, (gen w); rewrite Hw at 1; reflexivity|].
    apply Z.eqb_neq in E. pose proof (len_nonneg turns).
    destruct (py_index_neg turns (-1)) as (a & Ha & _); [lia|].
    exists a, (gen w). unfold lift. rewrite Ha, Hw at 1. reflexivity.
  - destruct (nice_until_not_returns lm turns) as (b & Hb).
    exists b, (gen w). unfold lift. rewrite Hb, Hw at 1. reflexivity.
  - destruct (average_strategy_returns turns) as (b & Hb).
    exists b, (gen w). unfold lift. rewrite Hb, Hw at 1. reflexivity.
  - destruct (len turns =? 0) eqn:E; [exists true, (gen w); rewrite Hw at 1; reflexivity|].
    apply Z.eqb_neq in E. pose proof (len_nonneg turns).
    unfold bind, randint.
    pose proof (randbelow_lt (Z.to_nat (len turns - 1 - 0 + 1)) (gen w) ltac:(lia)) as Hlt.
    destruct (randbelow (Z.to_nat (len turns - 1 - 0 + 1)) (gen w)) as [k g]. cbn [fst] in Hlt.
    destruct (py_index_nonneg turns (0 + Z.of_nat k)) as (a & Ha & _); [lia|].
    exists a, g. unfold lift. rewrite Ha. reflexivity.
  - unfold bind, getrandbits.
    destruct (randbelow (2 ^ 1) (gen w)) as [r g].
    eexists _, g. reflexivity.
  - exists false, (gen w). rewrite Hw at 1. reflexivity.
Qed.

(** ** One turn *)

Lemma update_same l f h : update l f h l = f (h l).
Proof. unfold update. rewrite Nat.eqb_refl. reflexivity. Qed.

Lemma update_other l l' f h : l' <> l -> update l f h l' = h l'.
Proof. unfold update. intros H. apply Nat.eqb_neq in H. rewrite H. reflexivity. Qed.

Lemma plays_refl p1 p2 h : plays p1 p2 h h.
Proof. intros l. repeat split. Qed.

Lemma plays_trans p1 p2 h1 h2 h3 :
  plays p1 p2 h1 h2 -> plays p1 p2 h2 h3 -> plays p1 p2 h1 h3.
Proof.
  intros H12 H23 l. destruct (H12 l) as (A1 & A2 & A3 & A4).
  destruct (H23 l) as (B1 & B2 & B3 & B4).
  repeat split; try congruence.
  intros N1 N2. rewrite B4, A4 by assumption. reflexivity.
Qed.

Lemma plays_update p1 p2 l f h :
  l = p1 \/ l = p2 ->
  (forall p, strategy (f p) = strategy p
             /\ elim_round (f p) = elim_round p /\ elim (f p) = elim p) ->
  plays p1 p2 h (update l f h).
Proof.
  intros Hl Hf l'. destruct (Nat.eq_dec l' l) as [->|Hne].
  - rewrite update_same. destruct (Hf (h l)) as (F1 & F2 & F3).
    repeat split; try assumption. intros N1 N2. destruct Hl; contradiction.
  - rewrite update_other by assumption. repeat split.
Qed.

(** A chain of method calls on [p1] and [p2], none of which touches the
    strategy, the elimination round or the flag. *)
Ltac plays_by_updates :=
  repeat (eapply plays_trans;
          [|apply plays_update;
            [(left; reflexivity) || (right; reflexivity)|intros ?; repeat split]]);
  apply plays_refl.

Lemma turn_heap_plays p1 p2 c1 c2 h : plays p1 p2 h (turn_heap p1 p2 c1 c2 h).
Proof. unfold turn_heap. plays_by_updates. Qed.

Lemma turn_heap_fields p1 p2 c1 c2 h :
  p1 <> p2 ->
  turns (turn_heap p1 p2 c1 c2 h p1) = turns (h p1) ++ [c1]
  /\ turns (turn_heap p1 p2 c1 c2 h p2) = turns (h p2) ++ [c2]
  /\ final_score (turn_heap p1 p2 c1 c2 h p1) = final_score (h p1) + (payoff c1 c2).1
  /\ final_score (turn_heap p1 p2 c1 c2 h p2) = final_score (h p2) + (payoff c1 c2).2.
Proof.
  intros Hne. assert (Hne' : p2 <> p1) by (intros E; apply Hne; symmetry; exact E).
  unfold turn_heap.
  repeat first [rewrite update_same
               |rewrite (update_other p2 p1) by exact Hne
               |rewrite (update_other p1 p2) by exact Hne'].
  repeat split.
Qed.

(** A turn between two strategies never raises. *)
Lemma dilemma_returns p1 p2 userchoice w :
  exists c1 c2 g,
    dilemma p1 p2 false userchoice w
    = Returns ((p1, p2), mkWorld (turn_heap p1 p2 c1 c2 (heap w)) g).
Proof.
  unfold dilemma, bind at 1 2 3, attr.
  destruct (strategy_to_payoff_returns (strategy (heap w p1)) (turns (heap w p2))
              (turns (heap w p1)) w) as (c1 & g1 & H1).
  unfold bind at 1. rewrite H1.
  cbn [negb]. unfold bind at 1 2 3 4, attr. cbn [heap].
  destruct (strategy_to_payoff_returns (strategy (heap w p2)) (turns (heap w p1))
              (turns (heap w p2)) (mkWorld (heap w) g1)) as (c2 & g2 & H2).
  cbn [heap] in H2. rewrite H2.
  exists c1, c2, g2. reflexivity.
Qed.

Lemma play_rounds_returns p1 p2 n w :
  exists w', play_rounds p1 p2 n w = Returns w' /\ plays p1 p2 (heap w) (heap w').
Proof.
  revert w. induction n as [|n IH]; intros w; cbn [play_rounds].
  - exists w. split; [reflexivity|apply plays_refl].
  - destruct (dilemma_returns p1 p2 None w) as (c1 & c2 & g & Hd). rewrite Hd.
    destruct (IH (mkWorld (turn_heap p1 p2 c1 c2 (heap w)) g)) as (w' & Hw' & Hp).
    exists w'. split; [exact Hw'|].
    eapply plays_trans; [apply turn_heap_plays|exact Hp].
Qed.

(** ** The loop of a match *)

Lemma if_true {A} (b : bool) (x y : A) : b = true -> (if b then x else y) = x.
Proof. intros ->. reflexivity. Qed.

Lemma if_false {A} (b : bool) (x y : A) : b = false -> (if b then x else y) = y.
Proof. intros ->. reflexivity. Qed.

Lemma match_loop_step p1 p2 elim_num round_max round_num w :
  match_loop p1 p2 elim_num round_max round_num w
  = if match_cond p1 p2 elim_num round_max round_num w then
      match dilemma p1 p2 false None w with
      | Returns ((q1, q2), w') => match_loop q1 q2 elim_num round_max (round_num + 1) w'
      | Raises e => Raises e
      end
    else Returns ((p1, p2, round_num), w).
Proof.
  rewrite match_loop_equation_1.
  destruct (inspect (match_cond p1 p2 elim_num round_max round_num w)) as [[] Hc];
    simp match_loop.
  - etransitivity; [|symmetry; apply (if_true _ _ _ Hc)].
    destruct (dilemma p1 p2 false None w) as [[[q1 q2] w']|e];
      simp match_loop; reflexivity.
  - symmetry. apply (if_false _ _ _ Hc).
Qed.

(** The loop plays [n] turns, for the least [n] at which its test fails, and
    hands back the same two prisoners with the round counter advanced by [n]. *)
Lemma match_loop_spec p1 p2 elim_num round_max round_num w :
  exists (n : nat) w',
    play_rounds p1 p2 n w = Returns w'
    /\ match_loop p1 p2 elim_num round_max round_num w
       = Returns ((p1, p2, round_num + Z.of_nat n), w')
    /\ (forall (k : nat) w_k, (k < n)%nat ->
          play_rounds p1 p2 k w = Returns w_k ->
          match_cond p1 p2 elim_num round_max (round_num + Z.of_nat k) w_k = true)
    /\ match_cond p1 p2 elim_num round_max (round_num + Z.of_nat n) w' = false.
Proof.
  remember (Z.to_nat (round_max + 1 - round_num)) as fuel eqn:Hfuel.
  revert round_num w Hfuel.
  induction (lt_wf fuel) as [fuel _ IH]. intros round_num w Hfuel.
  rewrite match_loop_step.
  destruct (match_cond p1 p2 elim_num round_max round_num w) eqn:Hc.
  - destruct (dilemma_returns p1 p2 None w) as (c1 & c2 & g & Hd).
    rewrite Hd.
    set (w1 := mkWorld (turn_heap p1 p2 c1 c2 (heap w)) g) in *.
    assert (Hle : round_num <= round_max).
    { unfold match_cond in Hc. apply andb_prop in Hc as [Hc _].
      apply andb_prop in Hc as [Hc _]. apply Z.leb_le in Hc. exact Hc. }
    assert (Hlt : (Z.to_nat (round_max + 1 - (round_num + 1)) < fuel)%nat) by lia.
    destruct (IH _ Hlt (round_num + 1) w1 eq_refl)
      as (n & w' & Hplay & Hloop & Hbefore & Hafter).
    exists (S n), w'. cbn [play_rounds]. rewrite Hd.
    replace (round_num + Z.of_nat (S n)) with (round_num + 1 + Z.of_nat n) by lia.
    repeat split; try assumption.
    intros k w_k Hk Hwk. destruct k as [|k].
    + injection Hwk as <-. rewrite Z.add_0_r. exact Hc.
    + replace (round_num + Z.of_nat (S k)) with (round_num + 1 + Z.of_nat k) by lia.
      cbn [play_rounds] in Hwk. rewrite Hd in Hwk.
      apply Hbefore; [lia|exact Hwk].
  - exists 0%nat, w. cbn [play_rounds]. rewrite Z.add_0_r.
    repeat split; try assumption. intros k w_k Hk. lia.
Qed.

(** ** A whole match *)

Lemma match_spec p1 p2 elim_num round_max w :
  exists (n : nat) w_n,
    play_rounds p1 p2 n (reset_world p1 p2 w) = Returns w_n
    /\ (forall (k : nat) w_k, (k < n)%nat ->
          play_rounds p1 p2 k (reset_world p1 p2 w) = Returns w_k ->
          match_cond p1 p2 elim_num round_max (1 + Z.of_nat k) w_k = true)
    /\ match_cond p1 p2 elim_num round_max (1 + Z.of_nat n) w_n = false
    /\ match_ p1 p2 elim_num round_max w = Returns (finish p1 p2 w_n).
Proof.
  destruct (match_loop_spec p1 p2 elim_num round_max 1 (reset_world p1 p2 w))
    as (n & w_n & Hplay & Hloop & Hbefore & Hafter).
  exists n, w_n. repeat split; try assumption.
  unfold match_. unfold bind at 1 2 3 4, call. cbn [heap gen].
  fold (reset_heap p1 p2 (heap w)). fold (reset_world p1 p2 w).
  unfold bind at 1. rewrite Hloop.
  unfold bind, attr, call, ret, finish.
  destruct (final_score (heap w_n p1) <=? final_score (heap w_n p2)); reflexivity.
Qed.

Lemma reset_heap_plays p1 p2 h : plays p1 p2 h (reset_heap p1 p2 h).
Proof. unfold reset_heap. plays_by_updates. Qed.

Lemma reset_heap_score_1 p1 p2 h : final_score (reset_heap p1 p2 h p1) = 0.
Proof.
  unfold reset_heap. destruct (Nat.eq_dec p1 p2) as [->|Hne].
  - rewrite update_same. cbn. rewrite update_same. reflexivity.
  - rewrite !(update_other p2) by exact Hne. rewrite update_same. cbn.
    rewrite update_same. reflexivity.
Qed.

Lemma reset_heap_score_2 p1 p2 h : final_score (reset_heap p1 p2 h p2) = 0.
Proof.
  unfold reset_heap. rewrite update_same. cbn. rewrite update_same. reflexivity.
Qed.

Lemma reset_heap_turns_1 p1 p2 h : turns (reset_heap p1 p2 h p1) = [].
Proof.
  unfold reset_heap. destruct (Nat.eq_dec p1 p2) as [->|Hne].
  - rewrite update_same. reflexivity.
  - rewrite !(update_other p2) by exact Hne. rewrite update_same. reflexivity.
Qed.

Lemma reset_heap_turns_2 p1 p2 h : turns (reset_heap p1 p2 h p2) = [].
Proof. unfold reset_heap. rewrite update_same. reflexivity. Qed.

Lemma eliminated_score l p h : final_score (update l eliminated h p) = final_score (h p).
Proof.
  destruct (Nat.eq_dec p l) as [->|Hne].
  - rewrite update_same. reflexivity.
  - rewrite update_other by exact Hne. reflexivity.
Qed.

Lemma eliminated_turns l p h : turns (update l eliminated h p) = turns (h p).
Proof.
  destruct (Nat.eq_dec p l) as [->|Hne].
  - rewrite update_same. reflexivity.
  - rewrite update_other by exact Hne. reflexivity.
Qed.

Lemma match_cond_iff p1 p2 elim_num round_max round_num w :
  match_cond p1 p2 elim_num round_max round_num w = true
  <-> round_num <= round_max
      /\ final_score (heap w p1) > elim_num
      /\ final_score (heap w p2) > elim_num.
Proof.
  unfold match_cond. rewrite !andb_true_iff, Z.leb_le, !Z.gtb_gt. tauto.
Qed.

Lemma match_finish p1 p2 elim_num round_max w :
  exists w_n,
    match_ p1 p2 elim_num round_max w = Returns (finish p1 p2 w_n)
    /\ plays p1 p2 (heap w) (heap w_n).
Proof.
  destruct (match_spec p1 p2 elim_num round_max w) as (n & w_n & Hplay & _ & _ & Hm).
  destruct (play_rounds_returns p1 p2 n (reset_world p1 p2 w)) as (w1 & Hw1 & Hp).
  rewrite Hplay in Hw1. injection Hw1 as <-.
  exists w_n. split; [exact Hm|].
  eapply plays_trans; [apply reset_heap_plays|exact Hp].
Qed.

Lemma eliminated_keeps l p h :
  strategy (update l eliminated h p) = strategy (h p)
  /\ elim_round (update l eliminated h p) = elim_round (h p).
Proof.
  destruct (Nat.eq_dec p l) as [->|Hne].
  - rewrite update_same. split; reflexivity.
  - rewrite update_other by exact Hne. split; reflexivity.
Qed.

(** What a match does to the heap, as the bracket sees it: it returns its two
    prisoners, one as winner and one as loser; the loser's elimination flag
    is set and no other flag changes; no elimination round and no strategy
    changes; prisoners that do not take part are left as they were. *)
Lemma match_effect a b elim_num round_max w :
  exists winner loser w',
    match_ a b elim_num round_max w = Returns ((winner, loser), w')
    /\ ((winner = a /\ loser = b) \/ (winner = b /\ loser = a))
    /\ elim (heap w' loser) = true
    /\ (forall l, l <> loser -> elim (heap w' l) = elim (heap w l))
    /\ (forall l, elim_round (heap w' l) = elim_round (heap w l))
    /\ (forall l, strategy (heap w' l) = strategy (heap w l))
    /\ (forall l, l <> a -> l <> b -> heap w' l = heap w l).
Proof.
  destruct (match_finish a b elim_num round_max w) as (w_n & Hm & Hpl).
  unfold finish in Hm.
  destruct (final_score (heap w_n a) <=? final_score (heap w_n b));
    [exists b, a, (mkWorld (update a eliminated (heap w_n)) (gen w_n))
    |exists a, b, (mkWorld (update b eliminated (heap w_n)) (gen w_n))];
    (split; [exact Hm|]); (split; [tauto|]); cbn [heap];
    (split; [rewrite update_same; reflexivity|]);
    (split; [intros l Hl; rewrite update_other by exact Hl; apply Hpl|]);
    (split; [intros l; rewrite (proj2 (eliminated_keeps _ _ _)); apply Hpl|]);
    (split; [intros l; rewrite (proj1 (eliminated_keeps _ _ _)); apply Hpl|]);
    intros l Ha Hb; rewrite update_other by assumption; apply Hpl; assumption.
Qed.

(** ** Shuffling permutes *)

Lemma swap_Permutation {A} (x : list A) i j : swap x i j ≡ₚ x.
Proof.
  unfold swap. destruct (x !! i) as [a|] eqn:Hi; [|reflexivity].
  destruct (x !! j) as [b|] eqn:Hj; [|reflexivity].
  apply Permutation_insert_swap; assumption.
Qed.

Lemma shuffle_from_Permutation {A} i (x : list A) g : (shuffle_from i x g).1 ≡ₚ x.
Proof.
  revert x g. induction i as [|i IH]; intros x g; [reflexivity|].
  cbn [shuffle_from]. destruct (randbelow (S (S i)) g) as [j g'].
  rewrite IH. apply swap_Permutation.
Qed.

Lemma shuffle_Permutation {A} (x : list A) g : (shuffle x g).1 ≡ₚ x.
Proof. apply shuffle_from_Permutation. Qed.

(** ** Pairing the ends of a list covers the list *)

Lemma list_ends_ind {A} (Q : list A -> Prop) :
  Q [] -> (forall a, Q [a]) -> (forall a l b, Q l -> Q (a :: l ++ [b])) ->
  forall l, Q l.
Proof.
  intros Hnil Hone Hstep l.
  remember (length l) as n eqn:Hn. revert l Hn.
  induction (lt_wf n) as [n _ IH]. intros l Hn.
  destruct l as [|a l]; [exact Hnil|].
  destruct l as [|b l' _] using rev_ind; [apply Hone|].
  apply Hstep. apply (IH (length l')); [|reflexivity].
  subst n. cbn. rewrite length_app. cbn. lia.
Qed.

Lemma half_succ_succ n : (S (S n) / 2 = S (n / 2))%nat.
Proof.
  change (S (S n)) with (2 + n)%nat.
  replace (2 + n)%nat with (1 * 2 + n)%nat by lia.
  rewrite Nat.div_add_l by lia. lia.
Qed.

Lemma parity_succ_succ n : (S (S n) mod 2 = n mod 2)%nat.
Proof.
  replace (S (S n)) with (n + 1 * 2)%nat by lia.
  apply Nat.Div0.mod_add.
Qed.

Lemma half_lt n : (n mod 2 = 1)%nat -> (n / 2 < n)%nat.
Proof. intros H. pose proof (Nat.div_mod_eq n 2). lia. Qed.

Lemma pairing_Permutation (P : list loc) :
  middle P ++ flat_map (ends P) (seq 0 (length P / 2)) ≡ₚ P.
Proof.
  induction P as [|a|a Q b IH] using list_ends_ind.
  - reflexivity.
  - reflexivity.
  - assert (Hlen : length (a :: Q ++ [b]) = S (S (length Q))).
    { cbn. rewrite length_app. cbn. lia. }
    assert (Hmid : middle (a :: Q ++ [b]) = middle Q).
    { unfold middle. rewrite Hlen, parity_succ_succ, half_succ_succ.
      destruct (length Q mod 2 =? 1)%nat eqn:E; [|reflexivity].
      apply Nat.eqb_eq in E. apply half_lt in E.
      change ((a :: Q ++ [b]) !! S (length Q / 2)%nat) with ((Q ++ [b]) !! (length Q / 2)%nat).
      rewrite lookup_app_l by exact E. reflexivity. }
    rewrite Hmid, Hlen, half_succ_succ.
    cbn [seq flat_map]. rewrite <- seq_shift, flat_map_concat_map, map_map.
    rewrite <- flat_map_concat_map.
    assert (H0 : ends (a :: Q ++ [b]) 0 = [a; b]).
    { unfold ends. rewrite Hlen.
      replace (S (S (length Q)) - 0 - 1)%nat with (S (length Q)) by lia.
      change ((a :: Q ++ [b]) !! S (length Q)) with ((Q ++ [b]) !! length Q).
      rewrite lookup_app_r by lia. rewrite Nat.sub_diag. reflexivity. }
    rewrite H0.
    assert (HS : flat_map (fun j => ends (a :: Q ++ [b]) (S j)) (seq 0 (length Q / 2))
                 = flat_map (ends Q) (seq 0 (length Q / 2))).
    { rewrite !flat_map_concat_map. f_equal.
      apply map_ext_in. intros j Hj. apply in_seq in Hj.
      pose proof (Nat.div_mod_eq (length Q) 2) as Hdm.
      unfold ends. rewrite Hlen.
      change ((a :: Q ++ [b]) !! S j) with ((Q ++ [b]) !! j).
      rewrite lookup_app_l by lia.
      replace (S (S (length Q)) - S j - 1)%nat with (S (length Q - j - 1)) by lia.
      change ((a :: Q ++ [b]) !! S (length Q - j - 1)%nat)
        with ((Q ++ [b]) !! (length Q - j - 1)%nat).
      rewrite lookup_app_l by lia. reflexivity. }
    rewrite HS.
    change ([a; b] ++ flat_map (ends Q) (seq 0 (length Q / 2)))
      with (a :: b :: flat_map (ends Q) (seq 0 (length Q / 2))).
    rewrite <- !Permutation_middle. constructor.
    rewrite IH. rewrite Permutation_app_comm. reflexivity.
Qed.

(** ** One round of the bracket *)

Lemma bind_eq {A B} (c : M A) (k : A -> M B) w a w1 :
  c w = Returns (a, w1) -> bind c k w = k a w1.
Proof. unfold bind. intros ->. reflexivity. Qed.

Lemma bind_lift_eq {A B} (o : outcome A) (k : A -> M B) w a :
  o = Returns a -> bind (lift o) k w = k a w.
Proof. unfold bind, lift. intros ->. reflexivity. Qed.

Lemma eliminates_nil h : eliminates [] h h.
Proof.
  repeat split. intros l Hl. apply elem_of_nil in Hl. contradiction.
Qed.

Lemma eliminates_app L1 L2 h1 h2 h3 :
  eliminates L1 h1 h2 -> eliminates L2 h2 h3 -> eliminates (L1 ++ L2) h1 h3.
Proof.
  intros (A1 & A2 & A3 & A4) (B1 & B2 & B3 & B4). repeat split.
  - intros l Hl. destruct (decide (l ∈ L2)) as [H2|H2]; [apply B1; exact H2|].
    rewrite B2 by exact H2. apply A1.
    apply elem_of_app in Hl as [Hl|Hl]; [exact Hl|contradiction].
  - intros l Hl. rewrite B2, A2; [reflexivity| |];
      intros H; apply Hl, elem_of_app; [left|right]; exact H.
  - intros l. rewrite B3. apply A3.
  - intros l. rewrite B4. apply A4.
Qed.

Lemma range_0 n : range 0 (Z.of_nat n) = map Z.of_nat (seq 0 n).
Proof.
  unfold range. rewrite Z.sub_0_r, Nat2Z.id. apply map_ext. intros k. lia.
Qed.

Lemma half_len {A} (P : list A) : len P / 2 = Z.of_nat (length P / 2).
Proof. unfold len. change 2 with (Z.of_nat 2). rewrite <- Nat2Z.inj_div. reflexivity. Qed.

Lemma parity_len {A} (P : list A) : len P mod 2 = Z.of_nat (length P mod 2).
Proof. unfold len. change 2 with (Z.of_nat 2). rewrite <- Nat2Z.inj_mod. reflexivity. Qed.

Section Bracket.

Variables elim_num round_max : Z.

(** The matches of a round never raise; they append one winner and one loser
    per match, and between them these are the prisoners at the two ends. *)
Lemma matches_loop_spec P (js : list nat) cw fp w :
  Forall (fun j => (j < length P)%nat) js ->
  exists winners losers w',
    matches_loop P elim_num round_max (map Z.of_nat js) cw fp w
    = Returns ((cw ++ winners, fp ++ losers), w')
    /\ winners ++ losers ≡ₚ flat_map (ends P) js
    /\ length winners = length js
    /\ eliminates losers (heap w) (heap w').
Proof.
  intros Hjs. revert cw fp w.
  induction Hjs as [|j js Hj _ IH]; intros cw fp w.
  - exists [], [], w. cbn [matches_loop map]. rewrite !app_nil_r.
    repeat split; try reflexivity; try apply eliminates_nil.
  - cbn [matches_loop map].
    destruct (py_index_nonneg P (Z.of_nat j)) as (a & Ha & Hla); [unfold len; lia|].
    destruct (py_index_nonneg P (len P - Z.of_nat j - 1)) as (b & Hb & Hlb);
      [unfold len; lia|].
    rewrite Nat2Z.id in Hla.
    replace (Z.to_nat (len P - Z.of_nat j - 1)) with (length P - j - 1)%nat in Hlb
      by (unfold len; lia).
    rewrite (bind_lift_eq _ _ _ _ Ha), (bind_lift_eq _ _ _ _ Hb).
    destruct (match_effect a b elim_num round_max w)
      as (winner & loser & w1 & Hm & Hwl & He1 & He2 & He3 & He4 & _).
    rewrite (bind_eq _ _ _ _ _ Hm).
    destruct (IH (cw ++ [winner]) (fp ++ [loser]) w1)
      as (winners & losers & w' & Hloop & Hperm & Hlen & Helim).
    exists (winner :: winners), (loser :: losers), w'.
    rewrite Hloop, <- !app_assoc. split; [reflexivity|].
    split; [|split].
    + cbn [flat_map]. unfold ends at 1. rewrite Hla, Hlb.
      cbn [app]. rewrite <- Permutation_middle, Hperm.
      destruct Hwl as [[-> ->]|[-> ->]]; [reflexivity|apply Permutation_swap].
    + cbn. rewrite Hlen. reflexivity.
    + change (loser :: losers) with ([loser] ++ losers).
      eapply eliminates_app; [|exact Helim].
      repeat split; try assumption.
      * intros l Hl. apply list_elem_of_singleton in Hl as ->. exact He1.
      * intros l Hl. apply He2. intros ->. apply Hl, list_elem_of_singleton. reflexivity.
Qed.

Lemma middle_index (P : list loc) :
  len P mod 2 = 1 ->
  exists x, py_index P (len P / 2) = Returns x /\ middle P = [x].
Proof.
  intros Hodd. rewrite parity_len in Hodd.
  assert (Hm : (length P mod 2 = 1)%nat) by lia.
  destruct (py_index_nonneg P (len P / 2)) as (x & Hx & Hlx).
  { rewrite half_len. unfold len. pose proof (half_lt _ Hm). lia. }
  exists x. split; [exact Hx|].
  rewrite half_len, Nat2Z.id in Hlx.
  unfold middle. rewrite Hm, Hlx. reflexivity.
Qed.

Lemma middle_even (P : list loc) : len P mod 2 <> 1 -> middle P = [].
Proof.
  intros Hev. rewrite parity_len in Hev. unfold middle.
  destruct (length P mod 2 =? 1)%nat eqn:E; [|reflexivity].
  apply Nat.eqb_eq in E. lia.
Qed.

(** A round never raises.  It leaves the survivors both in the caller's list
    and in [current_winners], and appends the round's losers to
    [final_prisoners]; survivors and losers together are the prisoners that
    entered the round. *)
Lemma bracket_round_spec st w :
  exists survivors losers w',
    bracket_round elim_num round_max st w
    = Returns (mkBracket survivors survivors (final_prisoners st ++ losers), w')
    /\ survivors ++ losers ≡ₚ prisoners st
    /\ length survivors
       = (length (prisoners st) mod 2 + length (prisoners st) / 2)%nat
    /\ eliminates losers (heap w) (heap w').
Proof.
  unfold bracket_round.
  pose proof (shuffle_Permutation (prisoners st) (gen w)) as Hperm.
  pose proof (shuffle_length (prisoners st) (gen w)) as Hlen.
  assert (Hsh : random_shuffle (prisoners st) w
                = Returns ((shuffle (prisoners st) (gen w)).1,
                           mkWorld (heap w) (shuffle (prisoners st) (gen w)).2)).
  { unfold random_shuffle. destruct (shuffle (prisoners st) (gen w)). reflexivity. }
  rewrite (bind_eq _ _ _ _ _ Hsh).
  set (P := (shuffle (prisoners st) (gen w)).1) in *.
  set (w1 := mkWorld (heap w) (shuffle (prisoners st) (gen w)).2).
  assert (Hmid : (if len P mod 2 =? 1
                  then let* extra := lift (py_index P (len P / 2)) in ret ([] ++ [extra])
                  else ret []) w1 = Returns (middle P, w1)).
  { destruct (len P mod 2 =? 1) eqn:E.
    - apply Z.eqb_eq in E. destruct (middle_index P E) as (x & Hx & ->).
      rewrite (bind_lift_eq _ _ _ _ Hx). reflexivity.
    - apply Z.eqb_neq in E. rewrite (middle_even P E). reflexivity. }
  rewrite (bind_eq _ _ _ _ _ Hmid).
  rewrite half_len, range_0.
  destruct (matches_loop_spec P (seq 0 (length P / 2))
              (middle P) (final_prisoners st) w1)
    as (winners & losers & w' & Hloop & Hp & Hl & Helim).
  { apply Forall_forall. intros j Hj. apply list_elem_of_In, in_seq in Hj.
    pose proof (Nat.div_mod_eq (length P) 2). lia. }
  rewrite (bind_eq _ _ _ _ _ Hloop).
  exists (middle P ++ winners), losers, w'.
  split; [reflexivity|]. split; [|split].
  - rewrite <- app_assoc, Hp, pairing_Permutation. exact Hperm.
  - rewrite length_app, Hl, length_seq, <- Hlen. f_equal.
    unfold middle. destruct (length P mod 2 =? 1)%nat eqn:E.
    + apply Nat.eqb_eq in E. pose proof (half_lt _ E) as Hlt.
      destruct (lookup_lt_is_Some_2 P _ Hlt) as [x Hx]. rewrite Hx, E. reflexivity.
    + apply Nat.eqb_neq in E.
      pose proof (Nat.mod_upper_bound (length P) 2 ltac:(lia)). cbn [length]. lia.
  - exact Helim.
Qed.

(** ** The loop of the bracket *)

Lemma matches_while_step st w :
  matches_while elim_num round_max st w
  = if 1 <? len (current_winners st) then
      match bracket_round elim_num round_max st w with
      | Returns (st', w') => matches_while elim_num round_max st' w'
      | Raises e => Raises e
      end
    else Returns (st, w).
Proof.
  rewrite matches_while_equation_1.
  destruct (inspect (1 <? len (current_winners st))) as [[] Hc].
  - rewrite matches_while_clause_1_equation_1.
    etransitivity; [|symmetry; apply (if_true _ _ _ Hc)].
    destruct (inspect (bracket_round elim_num round_max st w)) as [[[st' w']|e] Hr].
    + rewrite matches_while_clause_1_clause_2_equation_1.
      pattern (bracket_round elim_num round_max st w). rewrite Hr. reflexivity.
    + rewrite matches_while_clause_1_clause_2_equation_2.
      pattern (bracket_round elim_num round_max st w). rewrite Hr. reflexivity.
  - rewrite matches_while_clause_1_equation_2.
    symmetry. apply (if_false _ _ _ Hc).
Qed.

(** Started with [current_winners] a copy of [prisoners], as [set_up_matches]
    starts it, the loop never raises and ends with at most one survivor, who
    is alone in the caller's list; [final_prisoners] has received the losers
    of the successive rounds, in the order of the rounds. *)
Lemma matches_while_spec P fp w :
  exists survivors rounds w',
    matches_while elim_num round_max (mkBracket P P fp) w
    = Returns (mkBracket survivors survivors (fp ++ concat rounds), w')
    /\ rounds_of P rounds survivors
    /\ survivors ++ concat rounds ≡ₚ P
    /\ (length survivors <= 1)%nat
    /\ (P <> [] -> survivors <> [])
    /\ eliminates (concat rounds) (heap w) (heap w').
Proof.
  remember (length P) as n eqn:Hn. revert P fp w Hn.
  induction (lt_wf n) as [n _ IH]. intros P fp w Hn.
  rewrite matches_while_step. cbn [current_winners].
  destruct (1 <? len P) eqn:Hc.
  - apply Z.ltb_lt in Hc. unfold len in Hc.
    destruct (bracket_round_spec (mkBracket P P fp) w)
      as (S1 & L1 & w1 & Hr & Hp1 & Hl1 & He1).
    cbn [prisoners final_prisoners] in *. rewrite Hr.
    pose proof (Nat.div_mod_eq (length P) 2) as Hdm.
    pose proof (Nat.mod_upper_bound (length P) 2 ltac:(lia)) as Hub.
    assert (Hlt : (length S1 < n)%nat) by lia.
    destruct (IH _ Hlt S1 (fp ++ L1) w1 eq_refl)
      as (S2 & Ls & w2 & Hw & Hro & Hp2 & Hl2 & Hne2 & He2).
    exists S2, (L1 :: Ls), w2. cbn [concat]. rewrite Hw, <- app_assoc.
    split; [reflexivity|]. split; [|split; [|split; [|split]]].
    + apply rounds_step with (survivors := S1); try assumption; [lia|].
      apply Permutation_length in Hp1. rewrite length_app in Hp1. lia.
    + rewrite <- Hp1, <- Hp2.
      rewrite (Permutation_app_comm L1 (concat Ls)), app_assoc. reflexivity.
    + exact Hl2.
    + intros _. apply Hne2. intros ->. cbn [length] in Hl1. lia.
    + eapply eliminates_app; eassumption.
  - apply Z.ltb_ge in Hc. unfold len in Hc.
    exists P, [], w. cbn [concat]. rewrite !app_nil_r.
    split; [reflexivity|]. split; [apply rounds_done; lia|].
    split; [reflexivity|]. split; [lia|].
    split; [tauto|apply eliminates_nil].
Qed.

(** ** The whole bracket *)

Lemma set_up_matches_spec P w :
  P <> [] ->
  exists rounds winner w',
    set_up_matches P elim_num round_max w
    = Returns (mkSetUp (concat rounds ++ [winner]) [winner], w')
    /\ rounds_of P rounds [winner]
    /\ concat rounds ++ [winner] ≡ₚ P
    /\ eliminates (concat rounds) (heap w) (heap w').
Proof.
  intros HP. unfold set_up_matches. cbn [app].
  destruct (matches_while_spec P [] w)
    as (S & Ls & w' & Hw & Hro & Hp & Hl & Hne & He).
  rewrite (bind_eq _ _ _ _ _ Hw). cbn [app].
  destruct S as [|x S]; [exfalso; apply (Hne HP); reflexivity|].
  destruct S as [|y S]; [|cbn [length] in Hl; lia].
  rewrite (bind_lift_eq _ _ _ _ (py_index_head [] x)).
  exists Ls, x, w'. split; [reflexivity|]. split; [exact Hro|]. split; [|exact He].
  rewrite <- Hp. apply Permutation_app_comm.
Qed.

Lemma set_up_matches_empty w :
  set_up_matches [] elim_num round_max w = Raises IndexError.
Proof.
  unfold set_up_matches. cbn [app].
  assert (Hw : matches_while elim_num round_max (mkBracket [] [] []) w
               = Returns (mkBracket [] [] [], w)).
  { rewrite matches_while_step. reflexivity. }
  rewrite (bind_eq _ _ _ _ _ Hw). reflexivity.
Qed.

Lemma set_up_matches_single a w :
  set_up_matches [a] elim_num round_max w = Returns (mkSetUp [a] [a], w).
Proof.
  unfold set_up_matches. cbn [app].
  assert (Hw : matches_while elim_num round_max (mkBracket [a] [a] []) w
               = Returns (mkBracket [a] [a] [], w)).
  { rewrite matches_while_step. reflexivity. }
  rewrite (bind_eq _ _ _ _ _ Hw).
  rewrite (bind_lift_eq _ _ _ _ (py_index_head [] a)). reflexivity.
Qed.

(** ** The matches of a run, one by one *)

(** The [for] loop returns what its calls of [match] return. *)
Lemma round_trace_run P indices w rs w' cw fp :
  round_trace elim_num round_max P indices w rs w' ->
  matches_loop P elim_num round_max indices cw fp w
  = Returns ((cw ++ map won rs, fp ++ map lost rs), w').
Proof.
  intros H. revert cw fp.
  induction H as [w|i rest w a b winner loser w1 rs w' Ha Hb Hm _ IH]; intros cw fp.
  - cbn. rewrite !app_nil_r. reflexivity.
  - cbn [matches_loop].
    rewrite (bind_lift_eq _ _ _ _ Ha), (bind_lift_eq _ _ _ _ Hb).
    rewrite (bind_eq _ _ _ _ _ Hm), IH.
    cbn [map won lost]. rewrite <- !app_assoc. reflexivity.
Qed.

Lemma round_trace_exists P (js : list nat) w :
  Forall (fun j => (j < length P)%nat) js ->
  exists rs w', round_trace elim_num round_max P (map Z.of_nat js) w rs w'.
Proof.
  intros Hjs. revert w. induction Hjs as [|j js Hj _ IH]; intros w.
  - exists [], w. constructor.
  - destruct (py_index_nonneg P (Z.of_nat j)) as (a & Ha & _); [unfold len; lia|].
    destruct (py_index_nonneg P (len P - Z.of_nat j - 1)) as (b & Hb & _);
      [unfold len; lia|].
    destruct (match_effect a b elim_num round_max w) as (winner & loser & w1 & Hm & _).
    destruct (IH w1) as (rs & w' & Htr).
    exists (mkPlayed winner loser w1 :: rs), w'. cbn [map].
    econstructor; eassumption.
Qed.

Lemma round_trace_length P indices w rs w' :
  round_trace elim_num round_max P indices w rs w' -> length rs = length indices.
Proof.
  induction 1 as [w|i rest w a b winner loser w1 rs w' _ _ _ _ IH]; [reflexivity|].
  cbn [length]. rewrite IH. reflexivity.
Qed.

Lemma round_trace_unique P indices w rs w' rs2 w2 :
  round_trace elim_num round_max P indices w rs w' ->
  round_trace elim_num round_max P indices w rs2 w2 ->
  rs2 = rs /\ w2 = w'.
Proof.
  intros H. revert rs2 w2.
  induction H as [w|i rest w a b winner loser w1 rs w' Ha Hb Hm _ IH];
    intros rs2 w2 H2; inversion H2 as [|? ? ? a2 b2 winner2 loser2 w3 rs3 ? Ha2 Hb2 Hm2 Htr2];
    subst.
  - split; reflexivity.
  - rewrite Ha in Ha2. injection Ha2 as <-.
    rewrite Hb in Hb2. injection Hb2 as <-.
    rewrite Hm in Hm2. injection Hm2 as <- <- <-.
    destruct (IH _ _ Htr2) as [-> ->]. split; reflexivity.
Qed.

(** Just after each match of the [for] loop, the prisoners flagged since the
    loop began are the losers of the matches played so far. *)
Lemma round_trace_flags P indices w rs w' :
  round_trace elim_num round_max P indices w rs w' ->
  forall h L,
    eliminates L h (heap w) ->
    eliminates (L ++ map lost rs) h (heap w')
    /\ forall k pl,
         rs !! k = Some pl ->
         eliminates (L ++ map lost (take (S k) rs)) h (heap (world_after pl)).
Proof.
  induction 1 as [w|i rest w a b winner loser w1 rs w' Ha Hb Hm _ IH]; intros h L HL.
  - cbn [map]. rewrite app_nil_r. split; [exact HL|].
    intros k pl Hk. rewrite lookup_nil in Hk. discriminate.
  - assert (H1 : eliminates (L ++ [loser]) h (heap w1)).
    { eapply eliminates_app; [exact HL|].
      destruct (match_effect a b elim_num round_max w)
        as (winner' & loser' & w1' & Hm' & _ & He1 & He2 & He3 & He4 & _).
      rewrite Hm in Hm'. injection Hm' as <- <- <-.
      repeat split; try assumption.
      - intros l Hl. apply list_elem_of_singleton in Hl as ->. exact He1.
      - intros l Hl. apply He2. intros ->. apply Hl, list_elem_of_singleton. reflexivity. }
    destruct (IH h (L ++ [loser]) H1) as [Hend Hmid].
    split.
    + cbn [map lost]. rewrite <- app_assoc in Hend. exact Hend.
    + intros [|k] pl Hk.
      * injection Hk as <-. cbn [take map lost world_after]. exact H1.
      * cbn [take map lost]. specialize (Hmid k pl Hk).
        rewrite <- app_assoc in Hmid. exact Hmid.
Qed.

(** Winners and losers of the matches of a whole round are the prisoners at
    the two ends of the list, pair after pair. *)
Lemma round_trace_pairs P w rs w' :
  round_trace elim_num round_max P (range 0 (len P / 2)) w rs w' ->
  length rs = (length P / 2)%nat
  /\ middle P ++ map won rs ++ map lost rs ≡ₚ P.
Proof.
  intros Htr. split.
  - rewrite (round_trace_length _ _ _ _ _ Htr), range_length, half_len.
    rewrite Z.sub_0_r. apply Nat2Z.id.
  - rewrite half_len, range_0 in Htr.
    destruct (matches_loop_spec P (seq 0 (length P / 2)) [] [] w)
      as (winners & losers & w2 & Hloop & Hp & _).
    { apply Forall_forall. intros j Hj. apply list_elem_of_In, in_seq in Hj.
      pose proof (Nat.div_mod_eq (length P) 2). lia. }
    rewrite (round_trace_run _ _ _ _ _ [] [] Htr) in Hloop.
    cbn [app] in Hloop. injection Hloop as -> -> _.
    rewrite Hp. apply pairing_Permutation.
Qed.

Lemma middle_length (P : list loc) : length (middle P) = (length P mod 2)%nat.
Proof.
  unfold middle. destruct (length P mod 2 =? 1)%nat eqn:E.
  - apply Nat.eqb_eq in E. pose proof (half_lt _ E) as Hlt.
    destruct (lookup_lt_is_Some_2 P _ Hlt) as [x Hx]. rewrite Hx, E. reflexivity.
  - apply Nat.eqb_neq in E.
    pose proof (Nat.mod_upper_bound (length P) 2 ltac:(lia)). cbn [length]. lia.
Qed.

(** The prisoner who sits out, as the [if] of the loop finds it. *)
Lemma middle_returns (P : list loc) w :
  (if len P mod 2 =? 1
   then let* extra := lift (py_index P (len P / 2)) in ret ([] ++ [extra])
   else ret []) w = Returns (middle P, w).
Proof.
  destruct (len P mod 2 =? 1) eqn:E.
  - apply Z.eqb_eq in E. destruct (middle_index P E) as (x & Hx & ->).
    rewrite (bind_lift_eq _ _ _ _ Hx). reflexivity.
  - apply Z.eqb_neq in E. rewrite (middle_even P E). reflexivity.
Qed.

(** A pass of the [while] loop returns what its shuffle and its matches
    make. *)
Lemma bracket_round_trace P cw fp w P1 w0 rs w1 :
  random_shuffle P w = Returns (P1, w0) ->
  round_trace elim_num round_max P1 (range 0 (len P1 / 2)) w0 rs w1 ->
  bracket_round elim_num round_max (mkBracket P cw fp) w
  = Returns (mkBracket (middle P1 ++ map won rs) (middle P1 ++ map won rs)
               (fp ++ map lost rs), w1).
Proof.
  intros Hsh Htr. unfold bracket_round. cbn [prisoners final_prisoners].
  rewrite (bind_eq _ _ _ _ _ Hsh).
  rewrite (bind_eq _ _ _ _ _ (middle_returns P1 w0)).
  rewrite (bind_eq _ _ _ _ _ (round_trace_run _ _ _ _ _ (middle P1) fp Htr)).
  reflexivity.
Qed.

Lemma random_shuffle_returns (P : list loc) w :
  exists P1 w0,
    random_shuffle P w = Returns (P1, w0)
    /\ P1 ≡ₚ P /\ heap w0 = heap w.
Proof.
  exists (shuffle P (gen w)).1, (mkWorld (heap w) (shuffle P (gen w)).2).
  split; [|split; [apply shuffle_Permutation|reflexivity]].
  unfold random_shuffle. destruct (shuffle P (gen w)). reflexivity.
Qed.

(** The [while] loop returns what its passes make. *)
Lemma bracket_trace_run P w rounds last_ones w' :
  bracket_trace elim_num round_max P w rounds last_ones w' ->
  forall fp,
    matches_while elim_num round_max (mkBracket P P fp) w
    = Returns (mkBracket last_ones last_ones (fp ++ eliminated_in rounds), w').
Proof.
  induction 1 as [P w HP|P w P1 w0 rs w1 rest last_ones w' HP Hsh Htr _ IH]; intros fp.
  - rewrite matches_while_step. cbn [current_winners].
    destruct (1 <? len P) eqn:E; [apply Z.ltb_lt in E; lia|].
    unfold eliminated_in, played. cbn [flat_map map]. rewrite app_nil_r. reflexivity.
  - rewrite matches_while_step. cbn [current_winners].
    destruct (1 <? len P) eqn:E; [|apply Z.ltb_ge in E; lia].
    rewrite (bracket_round_trace _ _ _ _ _ _ _ _ Hsh Htr), IH.
    unfold eliminated_in, played. cbn [flat_map results].
    rewrite map_app, app_assoc. reflexivity.
Qed.

Lemma bracket_trace_exists P w :
  exists rounds last_ones w', bracket_trace elim_num round_max P w rounds last_ones w'.
Proof.
  remember (length P) as n eqn:Hn. revert P w Hn.
  induction (lt_wf n) as [n _ IH]. intros P w Hn.
  destruct (Z.le_gt_cases (len P) 1) as [Hle|Hgt].
  - exists [], P, w. constructor. exact Hle.
  - destruct (random_shuffle_returns P w) as (P1 & w0 & Hsh & Hperm & _).
    assert (Hjs : Forall (fun j => (j < length P1)%nat) (seq 0 (length P1 / 2))).
    { apply Forall_forall. intros j Hj. apply list_elem_of_In, in_seq in Hj.
      pose proof (Nat.div_mod_eq (length P1) 2). lia. }
    destruct (round_trace_exists P1 _ w0 Hjs) as (rs & w1 & Htr).
    rewrite <- range_0, <- half_len in Htr.
    destruct (round_trace_pairs _ _ _ _ Htr) as [Hl _].
    apply Permutation_length in Hperm.
    assert (Hlt : (length (middle P1 ++ map won rs) < n)%nat).
    { rewrite length_app, length_map, middle_length, Hl, Hperm.
      unfold len in Hgt.
      pose proof (Nat.div_mod_eq (length P) 2) as Hdm.
      pose proof (Nat.mod_upper_bound (length P) 2 ltac:(lia)) as Hub. lia. }
    destruct (IH _ Hlt (middle P1 ++ map won rs) w1 eq_refl)
      as (rest & last_ones & w' & Hrest).
    exists (mkRound P1 rs :: rest), last_ones, w'.
    econstructor; eassumption.
Qed.

Lemma bracket_trace_unique P w rounds last_ones w' rounds2 last2 w2 :
  bracket_trace elim_num round_max P w rounds last_ones w' ->
  bracket_trace elim_num round_max P w rounds2 last2 w2 ->
  rounds2 = rounds /\ last2 = last_ones /\ w2 = w'.
Proof.
  intros H. revert rounds2 last2 w2.
  induction H as [P w HP|P w P1 w0 rs w1 rest last_ones w' HP Hsh Htr _ IH];
    intros rounds2 last2 w2 H2;
    inversion H2 as [? ? HP2|? ? P2 w3 rs2 w4 rest2 ? ? HP2 Hsh2 Htr2 Hrest2]; subst;
    try lia.
  - repeat split.
  - rewrite Hsh in Hsh2. injection Hsh2 as <- <-.
    destruct (round_trace_unique _ _ _ _ _ _ _ Htr Htr2) as [-> ->].
    destruct (IH _ _ _ Hrest2) as (-> & -> & ->). repeat split.
Qed.

(** Just after each match of the bracket, the prisoners flagged since the
    bracket began are the losers of the matches played so far. *)
Lemma bracket_trace_flags P w rounds last_ones w' :
  bracket_trace elim_num round_max P w rounds last_ones w' ->
  forall h L,
    eliminates L h (heap w) ->
    eliminates (L ++ eliminated_in rounds) h (heap w')
    /\ forall k pl,
         played rounds !! k = Some pl ->
         eliminates (L ++ take (S k) (eliminated_in rounds)) h (heap (world_after pl)).
Proof.
  induction 1 as [P w HP|P w P1 w0 rs w1 rest last_ones w' HP Hsh Htr _ IH];
    intros h L HL.
  - unfold eliminated_in, played. cbn [flat_map map]. rewrite app_nil_r.
    split; [exact HL|]. intros k pl Hk. rewrite lookup_nil in Hk. discriminate.
  - destruct (random_shuffle_returns P w) as (P1' & w0' & Hsh' & _ & Hh).
    rewrite Hsh in Hsh'. injection Hsh' as <- <-.
    rewrite <- Hh in HL.
    destruct (round_trace_flags _ _ _ _ _ Htr h L HL) as [Hend Hmid].
    destruct (IH h _ Hend) as [Hend' Hmid'].
    unfold eliminated_in, played in *. cbn [flat_map results].
    rewrite map_app. split.
    + rewrite <- app_assoc in Hend'. exact Hend'.
    + intros k pl Hk.
      destruct (decide (k < length rs)%nat) as [Hlt|Hge].
      * rewrite lookup_app_l in Hk by exact Hlt.
        rewrite take_app_le by (rewrite length_map; lia).
        rewrite firstn_map. apply Hmid. exact Hk.
      * rewrite lookup_app_r in Hk by lia.
        specialize (Hmid' _ _ Hk). rewrite <- app_assoc in Hmid'.
        rewrite take_app, take_ge by (rewrite length_map; lia).
        rewrite length_map.
        replace (S k - length rs)%nat with (S (k - length rs)) by lia.
        exact Hmid'.
Qed.

Lemma log2_up_half n : (1 < n)%nat -> Nat.log2_up n = S (Nat.log2_up (n - n / 2)).
Proof.
  intros Hn.
  pose proof (Nat.div_mod_eq n 2) as Hdm.
  pose proof (Nat.mod_upper_bound n 2 ltac:(lia)) as Hub.
  destruct (Nat.eq_dec (n - n / 2) 1) as [E1|E1].
  - assert (E : n = 2%nat) by lia. rewrite E. reflexivity.
  - assert (Hs : (1 < n - n / 2)%nat) by lia.
    pose proof (Nat.log2_up_spec _ Hs) as (Hlo & Hhi).
    pose proof (Nat.log2_up_pos _ Hs) as Hpos.
    apply Nat.log2_up_unique; [lia|]. cbn [Nat.pred].
    rewrite Nat.pow_succ_r'.
    assert (Hdouble : (2 ^ Nat.log2_up (n - n / 2)
                       = 2 * 2 ^ Nat.pred (Nat.log2_up (n - n / 2)))%nat).
    { rewrite <- Nat.pow_succ_r', Nat.succ_pred by lia. reflexivity. }
    lia.
Qed.

(** How many passes and how many matches: a pass over [n] prisoners plays
    [n / 2] matches, at least one, and the passes stop with one prisoner
    left, or none when there was none. *)
Lemma bracket_trace_size P w rounds last_ones w' :
  bracket_trace elim_num round_max P w rounds last_ones w' ->
  length last_ones = Nat.min 1 (length P)
  /\ length rounds = Nat.log2_up (length P)
  /\ length (played rounds) = (length P - length last_ones)%nat
  /\ Forall (fun rd => length (results rd) = (length (lineup rd) / 2)%nat
                       /\ results rd <> []) rounds.
Proof.
  induction 1 as [P w HP|P w P1 w0 rs w1 rest last_ones w' HP Hsh Htr _ IH].
  - unfold len in HP. unfold played. cbn [flat_map length].
    split; [lia|]. split; [|split; [lia|constructor]].
    destruct P as [|a [|b P]]; [reflexivity|reflexivity|cbn [length] in HP; lia].
  - destruct IH as (Hlast & Hk & Hpl & Hf).
    destruct (random_shuffle_returns P w) as (P1' & w0' & Hsh' & Hperm & _).
    rewrite Hsh in Hsh'. injection Hsh' as <- <-.
    apply Permutation_length in Hperm.
    destruct (round_trace_pairs _ _ _ _ Htr) as [Hl _].
    unfold len in HP.
    pose proof (Nat.div_mod_eq (length P) 2) as Hdm.
    pose proof (Nat.mod_upper_bound (length P) 2 ltac:(lia)) as Hub.
    assert (Hnext : length (middle P1 ++ map won rs) = (length P - length P / 2)%nat).
    { rewrite length_app, length_map, middle_length, Hl, Hperm. lia. }
    rewrite Hnext in Hlast, Hk, Hpl.
    unfold played in *. cbn [flat_map results length lineup].
    rewrite length_app, Hpl, Hl, Hperm, Hk.
    split; [lia|]. split; [symmetry; apply log2_up_half; lia|].
    split; [lia|].
    constructor; [|exact Hf]. cbn [results lineup]. split; [lia|].
    intros ->. cbn [length] in Hl. rewrite Hperm in Hl. lia.
Qed.

(** Who plays the passes: the first pass is played by the prisoners given,
    every later one by the prisoner who sat out the pass before and the
    winners of its matches; the prisoners of a pass are the one who sits out,
    the winners and the losers. *)
Lemma bracket_trace_lineups P w rounds last_ones w' :
  bracket_trace elim_num round_max P w rounds last_ones w' ->
  (forall rd, rounds !! 0%nat = Some rd -> lineup rd ≡ₚ P)
  /\ (forall k rd rd',
        rounds !! k = Some rd -> rounds !! S k = Some rd' ->
        lineup rd' ≡ₚ middle (lineup rd) ++ map won (results rd))
  /\ Forall (fun rd => middle (lineup rd) ++ map won (results rd) ++ map lost (results rd)
                       ≡ₚ lineup rd) rounds.
Proof.
  induction 1 as [P w HP|P w P1 w0 rs w1 rest last_ones w' HP Hsh Htr _ IH].
  - split; [|split; [|constructor]].
    + intros rd Hrd. rewrite lookup_nil in Hrd. discriminate.
    + intros k rd rd' Hrd. rewrite lookup_nil in Hrd. discriminate.
  - destruct IH as (Hhead & Hnext & Hall).
    destruct (random_shuffle_returns P w) as (P1' & w0' & Hsh' & Hperm & _).
    rewrite Hsh in Hsh'. injection Hsh' as <- <-.
    split; [|split].
    + intros rd Hrd. injection Hrd as <-. exact Hperm.
    + intros [|k] rd rd' Hrd Hrd'.
      * injection Hrd as <-. cbn [lineup results]. apply Hhead. exact Hrd'.
      * apply (Hnext k); assumption.
    + constructor; [|exact Hall]. cbn [lineup results].
      apply (round_trace_pairs _ _ _ _ Htr).
Qed.

(** The prisoners left and the losers of all the matches are the prisoners
    given. *)
Lemma bracket_trace_Permutation P w rounds last_ones w' :
  bracket_trace elim_num round_max P w rounds last_ones w' ->
  eliminated_in rounds ++ last_ones ≡ₚ P.
Proof.
  induction 1 as [P w HP|P w P1 w0 rs w1 rest last_ones w' HP Hsh Htr _ IH].
  - reflexivity.
  - destruct (random_shuffle_returns P w) as (P1' & w0' & Hsh' & Hperm & _).
    rewrite Hsh in Hsh'. injection Hsh' as <- <-.
    destruct (round_trace_pairs _ _ _ _ Htr) as [_ Hpairs].
    unfold eliminated_in, played in *. cbn [flat_map results].
    rewrite map_app, <- app_assoc, IH.
    etransitivity; [|exact Hperm]. etransitivity; [|exact Hpairs].
    rewrite (Permutation_app_comm (map lost rs)), <- app_assoc. reflexivity.
Qed.

Lemma lookup_map_Some {A B} (f : A -> B) (l : list A) k x :
  l !! k = Some x -> map f l !! k = Some (f x).
Proof.
  revert k. induction l as [|y l IH]; intros [|k] H; try discriminate.
  - injection H as ->. reflexivity.
  - apply (IH k). exact H.
Qed.

(** The whole call and its matches. *)
Lemma set_up_matches_trace P w :
  P <> [] ->
  exists rounds winner w',
    bracket_trace elim_num round_max P w rounds [winner] w'
    /\ set_up_matches P elim_num round_max w
       = Returns (mkSetUp (eliminated_in rounds ++ [winner]) [winner], w').
Proof.
  intros HP.
  destruct (bracket_trace_exists P w) as (rounds & last_ones & w' & Htr).
  destruct (bracket_trace_size _ _ _ _ _ Htr) as (Hlast & _).
  destruct last_ones as [|x [|y last_ones]].
  - destruct P; [contradiction|cbn [length] in Hlast; lia].
  - exists rounds, x, w'. split; [exact Htr|].
    unfold set_up_matches. cbn [app].
    rewrite (bind_eq _ _ _ _ _ (bracket_trace_run _ _ _ _ _ Htr [])). cbn [app].
    rewrite (bind_lift_eq _ _ _ _ (py_index_head [] x)). reflexivity.
  - cbn [length] in Hlast. lia.
Qed.

End Bracket.

(** * The claims *)

(** ** Payoffs *)

(** C6. For every pair of moves, the payoffs are (5,5) when both cooperate,
    (0,0) when both defect, and 3 for the defector against -1 for the
    cooperator in a mixed pair.  Hence the payoffs of [(a, b)] are those of
    [(b, a)] swapped, the two payoffs sum to 10, 0 or 2, and in a mixed pair
    the defector's payoff is strictly the larger.  These are the amounts that
    a turn between two distinct prisoners adds to their scores, for the two
    moves it appends to their histories. *)
Theorem payoff_table :
  payoff true true = (5, 5)
  /\ payoff false false = (0, 0)
  /\ payoff false true = (3, -1)
  /\ payoff true false = (-1, 3)
  /\ (forall a b, payoff a b = ((payoff b a).2, (payoff b a).1))
  /\ (payoff true true).1 + (payoff true true).2 = 10
  /\ (payoff false false).1 + (payoff false false).2 = 0
  /\ (forall a b, a <> b -> (payoff a b).1 + (payoff a b).2 = 2)
  /\ (payoff false true).1 > (payoff false true).2
  /\ (payoff true false).2 > (payoff true false).1
  /\ (forall p1 p2 w, p1 <> p2 ->
      exists c1 c2 w',
        dilemma p1 p2 false None w = Returns ((p1, p2), w')
        /\ turns (heap w' p1) = turns (heap w p1) ++ [c1]
        /\ turns (heap w' p2) = turns (heap w p2) ++ [c2]
        /\ final_score (heap w' p1) = final_score (heap w p1) + (payoff c1 c2).1
        /\ final_score (heap w' p2) = final_score (heap w p2) + (payoff c1 c2).2).
Proof.
  do 4 (split; [reflexivity|]).
  split; [intros [] []; reflexivity|].
  do 2 (split; [reflexivity|]).
  split; [intros [] [] H; try reflexivity; contradiction|].
  do 2 (split; [reflexivity|]).
  intros p1 p2 w Hne.
  destruct (dilemma_returns p1 p2 None w) as (c1 & c2 & g & Hd).
  exists c1, c2, (mkWorld (turn_heap p1 p2 c1 c2 (heap w)) g).
  split; [exact Hd|]. cbn [heap]. apply turn_heap_fields. exact Hne.
Qed.

(** ** Decisions *)

Lemma last_move_reads (our_turns : list bool) w :
  (if len our_turns =? 0 then ret None
   else let* m := lift (py_index our_turns (-1)) in ret (Some m)) w
  = Returns (last our_turns, w).
Proof.
  destruct our_turns as [|b l _] using rev_ind; [reflexivity|].
  rewrite len_app. unfold len at 1 2. cbn [length].
  destruct (Z.of_nat (length l) + Z.of_nat 1 =? 0) eqn:E; [apply Z.eqb_eq in E; lia|].
  rewrite (bind_lift_eq _ _ _ _ (py_index_last l b)), last_snoc. reflexivity.
Qed.

Lemma nice_until_not_spec last_move own turns :
  truthy last_move = truthy (last own) ->
  nice_until_not last_move turns = Returns (NiceUntilNot_spec own turns).
Proof.
  intros Hlm. unfold nice_until_not, NiceUntilNot_spec. rewrite Hlm.
  destruct turns as [|t1 l _] using rev_ind; [reflexivity|].
  rewrite len_app, last_snoc, py_index_last, removelast_last, length_app.
  unfold len. cbn [length obind].
  destruct (Z.of_nat (length l) + Z.of_nat 1 =? 0) eqn:E0; [apply Z.eqb_eq in E0; lia|].
  destruct (last own) as [[]|]; cbn [truthy].
  - destruct t1; reflexivity.
  - destruct l as [|t2 l' _] using rev_ind; [reflexivity|].
    rewrite length_app, last_snoc, <- app_assoc. cbn [length app].
    rewrite py_index_last_but_one. cbn [obind].
    destruct (Z.of_nat (length l' + 1) + Z.of_nat 1 =? 1) eqn:E1;
      [apply Z.eqb_eq in E1; lia|].
    destruct (length l' + 1 + 1 =? 1)%nat eqn:E2; [apply Nat.eqb_eq in E2; lia|].
    destruct t1, t2; reflexivity.
  - destruct l as [|t2 l' _] using rev_ind; [reflexivity|].
    rewrite length_app, last_snoc, <- app_assoc. cbn [length app].
    rewrite py_index_last_but_one. cbn [obind].
    destruct (Z.of_nat (length l' + 1) + Z.of_nat 1 =? 1) eqn:E1;
      [apply Z.eqb_eq in E1; lia|].
    destruct (length l' + 1 + 1 =? 1)%nat eqn:E2; [apply Nat.eqb_eq in E2; lia|].
    destruct t1, t2; reflexivity.
Qed.

(** C7. The decision of NiceUntilNot: cooperate when the opponent has no
    history; otherwise, if the prisoner's own last move was a cooperation,
    repeat the opponent's last move; otherwise defect if the opponent has
    played once, and else cooperate exactly when the opponent's last two moves
    were cooperations.  An absent own last move does not take the mirror
    branch: with no own history and an opponent who has cooperated once, the
    decision is to defect. *)
Theorem nice_until_not_decision :
  (forall ownHistory opponentHistory w,
     strategy_to_payoff NICEUNTIL opponentHistory ownHistory w
     = Returns (NiceUntilNot_spec ownHistory opponentHistory, w))
  /\ (forall ownHistory, NiceUntilNot_spec ownHistory [] = true)
  /\ (forall ownHistory opponentHistory o,
        NiceUntilNot_spec (ownHistory ++ [true]) (opponentHistory ++ [o]) = o)
  /\ (forall ownHistory o, NiceUntilNot_spec (ownHistory ++ [false]) [o] = false)
  /\ (forall ownHistory opponentHistory o2 o1,
        NiceUntilNot_spec (ownHistory ++ [false]) (opponentHistory ++ [o2; o1])
        = o1 && o2)
  /\ (forall o, NiceUntilNot_spec [] [o] = false)
  /\ (forall opponentHistory o2 o1,
        NiceUntilNot_spec [] (opponentHistory ++ [o2; o1]) = o1 && o2).
Proof.
  split; [|split; [|split; [|split; [|split; [|split]]]]].
  - intros own opp w. unfold strategy_to_payoff.
    rewrite (bind_eq _ _ _ _ _ (last_move_reads own w)). cbn [value Z.eqb Pos.eqb].
    unfold lift. rewrite (nice_until_not_spec (last own) own opp eq_refl). reflexivity.
  - reflexivity.
  - intros own opp o. unfold NiceUntilNot_spec. rewrite !last_snoc. reflexivity.
  - intros own o. unfold NiceUntilNot_spec. rewrite last_snoc. reflexivity.
  - intros own opp o2 o1. unfold NiceUntilNot_spec.
    change [o2; o1] with ([o2] ++ [o1]). rewrite app_assoc, !last_snoc.
    rewrite removelast_last, last_snoc, !length_app. cbn [length].
    destruct (length opp + 1 + 1 =? 1)%nat eqn:E; [apply Nat.eqb_eq in E; lia|].
    reflexivity.
  - reflexivity.
  - intros opp o2 o1. unfold NiceUntilNot_spec.
    change [o2; o1] with ([o2] ++ [o1]). rewrite app_assoc, !last_snoc.
    rewrite removelast_last, last_snoc, !length_app. cbn [length last].
    destruct (length opp + 1 + 1 =? 1)%nat eqn:E; [apply Nat.eqb_eq in E; lia|].
    reflexivity.
Qed.

(** C3 (amended). Asked to decide for the user's placeholder strategy,
    [strategy_to_payoff] raises nothing: for every pair of histories it
    returns the move "defect", as it does for GREEDY, and changes nothing. *)
Theorem user_strategy_defects turns our_turns w :
  strategy_to_payoff USER turns our_turns w = Returns (false, w).
Proof.
  unfold strategy_to_payoff.
  rewrite (bind_eq _ _ _ _ _ (last_move_reads our_turns w)). reflexivity.
Qed.

(** C3 as stated fails: with empty histories the decision for the user's
    strategy is a move, not an error. *)
Lemma user_strategy_counterexample :
  strategy_to_payoff USER [] [] (fresh_world []) = Returns (false, fresh_world [])
  /\ forall e, strategy_to_payoff USER [] [] (fresh_world []) <> Raises e.
Proof.
  split; [reflexivity|]. intros e H. discriminate H.
Qed.

(** ** Degenerate populations *)

(** C4 (amended). On an empty population [set_up_matches] fails with
    [IndexError], raised when it reads the winner; on a population of one it
    does not fail: it returns the list holding that prisoner, leaves the
    caller's list as it was, and changes neither the heap nor the generator. *)
Theorem set_up_matches_degenerate :
  (forall elim_num round_max w,
     set_up_matches [] elim_num round_max w = Raises IndexError)
  /\ (forall a elim_num round_max w,
        set_up_matches [a] elim_num round_max w = Returns (mkSetUp [a] [a], w)).
Proof.
  split.
  - intros elim_num round_max w. apply set_up_matches_empty.
  - intros a elim_num round_max w. apply set_up_matches_single.
Qed.

(** C4 as stated fails: a population of one prisoner is accepted. *)
Lemma set_up_matches_single_counterexample :
  set_up_matches [0%nat] (-10) 10 (fresh_world [NICE])
  = Returns (mkSetUp [0%nat] [0%nat], fresh_world [NICE])
  /\ forall e, set_up_matches [0%nat] (-10) 10 (fresh_world [NICE]) <> Raises e.
Proof.
  rewrite set_up_matches_single. split; [reflexivity|]. intros e H. discriminate H.
Qed.

(** ** Matches *)

(** C9. With an elimination threshold of at least 0, [match] plays no round
    at all, whatever the two prisoners and the round limit: the loop leaves
    the round counter at 1, both scores are 0 and both histories empty, the
    first prisoner is returned as the loser, flagged, and no random draw has
    been made. *)
Theorem match_plays_no_round p1 p2 elim_num round_max w :
  0 <= elim_num ->
  exists w',
    match_ p1 p2 elim_num round_max w = Returns ((p2, p1), w')
    /\ match_loop p1 p2 elim_num round_max 1 (reset_world p1 p2 w)
       = Returns ((p1, p2, 1), reset_world p1 p2 w)
    /\ w' = mkWorld (update p1 eliminated (reset_heap p1 p2 (heap w))) (gen w)
    /\ final_score (heap w' p1) = 0 /\ final_score (heap w' p2) = 0
    /\ turns (heap w' p1) = [] /\ turns (heap w' p2) = []
    /\ elim (heap w' p1) = true.
Proof.
  intros He.
  assert (Hc : match_cond p1 p2 elim_num round_max 1 (reset_world p1 p2 w) = false).
  { destruct (match_cond p1 p2 elim_num round_max 1 (reset_world p1 p2 w)) eqn:E;
      [|reflexivity].
    apply match_cond_iff in E as (_ & E & _).
    cbn [reset_world heap] in E. rewrite reset_heap_score_1 in E. lia. }
  assert (Hloop : match_loop p1 p2 elim_num round_max 1 (reset_world p1 p2 w)
                  = Returns ((p1, p2, 1), reset_world p1 p2 w)).
  { rewrite match_loop_step, Hc. reflexivity. }
  exists (mkWorld (update p1 eliminated (reset_heap p1 p2 (heap w))) (gen w)).
  split; [|split; [exact Hloop|split; [reflexivity|]]].
  - unfold match_. unfold bind at 1 2 3 4, call. cbn [heap gen].
    fold (reset_heap p1 p2 (heap w)). fold (reset_world p1 p2 w).
    rewrite (bind_eq _ _ _ _ _ Hloop).
    unfold bind, attr, call, ret. cbn [reset_world heap gen].
    rewrite reset_heap_score_1, reset_heap_score_2. reflexivity.
  - cbn [heap]. rewrite !eliminated_score, !eliminated_turns.
    rewrite reset_heap_score_1, reset_heap_score_2, reset_heap_turns_1, reset_heap_turns_2.
    rewrite update_same. repeat split.
Qed.

Lemma match_plays_no_round_witness :
  0 <= 0
  /\ exists w',
       match_ 0%nat 1%nat 0 10 (fresh_world [NICE; GREEDY]) = Returns ((1%nat, 0%nat), w')
       /\ match_loop 0%nat 1%nat 0 10 1 (reset_world 0%nat 1%nat (fresh_world [NICE; GREEDY]))
          = Returns ((0%nat, 1%nat, 1), reset_world 0%nat 1%nat (fresh_world [NICE; GREEDY]))
       /\ w' = mkWorld (update 0%nat eliminated
                          (reset_heap 0%nat 1%nat (heap (fresh_world [NICE; GREEDY]))))
                 (gen (fresh_world [NICE; GREEDY]))
       /\ final_score (heap w' 0%nat) = 0 /\ final_score (heap w' 1%nat) = 0
       /\ turns (heap w' 0%nat) = [] /\ turns (heap w' 1%nat) = []
       /\ elim (heap w' 0%nat) = true.
Proof.
  split; [lia|].
  apply (match_plays_no_round 0%nat 1%nat 0 10 (fresh_world [NICE; GREEDY])). lia.
Defined.

(** C1 (amended). [match] returns as winner the prisoner whose final score is
    strictly higher; when the two final scores are equal it is the first
    prisoner, [prisoner1], who is returned as the loser.  In every case the
    loser's elimination flag is set and no other prisoner's flag changes. *)
Theorem match_winner p1 p2 elim_num round_max w :
  exists winner loser w',
    match_ p1 p2 elim_num round_max w = Returns ((winner, loser), w')
    /\ (final_score (heap w' p2) < final_score (heap w' p1) ->
        winner = p1 /\ loser = p2)
    /\ (final_score (heap w' p1) < final_score (heap w' p2) ->
        winner = p2 /\ loser = p1)
    /\ (final_score (heap w' p1) = final_score (heap w' p2) ->
        winner = p2 /\ loser = p1)
    /\ elim (heap w' loser) = true
    /\ (forall l, l <> loser -> elim (heap w' l) = elim (heap w l)).
Proof.
  destruct (match_finish p1 p2 elim_num round_max w) as (w_n & Hm & Hpl).
  unfold finish in Hm.
  destruct (final_score (heap w_n p1) <=? final_score (heap w_n p2)) eqn:E.
  - apply Z.leb_le in E.
    exists p2, p1, (mkWorld (update p1 eliminated (heap w_n)) (gen w_n)).
    split; [exact Hm|]. cbn [heap]. rewrite !eliminated_score.
    repeat split; try lia.
    + rewrite update_same. reflexivity.
    + intros l Hl. rewrite update_other by exact Hl. apply Hpl.
  - apply Z.leb_gt in E.
    exists p1, p2, (mkWorld (update p2 eliminated (heap w_n)) (gen w_n)).
    split; [exact Hm|]. cbn [heap]. rewrite !eliminated_score.
    repeat split; try lia.
    + rewrite update_same. reflexivity.
    + intros l Hl. rewrite update_other by exact Hl. apply Hpl.
Qed.

(** C1 as stated fails on a tie: two NICE prisoners end ten rounds at 50
    points each, and the loser, the one flagged, is the first of the two. *)
Lemma match_tie_counterexample :
  match match_ 0%nat 1%nat (-10) 10 (fresh_world [NICE; NICE]) with
  | Returns ((winner, loser), w') =>
      final_score (heap w' 0%nat) = 50 /\ final_score (heap w' 1%nat) = 50
      /\ winner = 1%nat /\ loser = 0%nat
      /\ elim (heap w' 0%nat) = true /\ elim (heap w' 1%nat) = false
  | Raises _ => False
  end.
Proof. vm_compute. repeat split. Qed.

(** C8. For a positive round limit, [match] first resets the scores to 0 and
    the histories to empty, then plays [n] rounds, with [n] at most the limit:
    a further round is played exactly when the round counter (one more than
    the number of rounds played) is at most the limit and both scores are
    strictly above the threshold; the loop stops at the first [n] where one of
    the three fails, and the match ends there. *)
Theorem match_terminates p1 p2 elim_num round_max w :
  0 < round_max ->
  exists (n : nat) w_n,
    final_score (heap (reset_world p1 p2 w) p1) = 0
    /\ final_score (heap (reset_world p1 p2 w) p2) = 0
    /\ turns (heap (reset_world p1 p2 w) p1) = []
    /\ turns (heap (reset_world p1 p2 w) p2) = []
    /\ Z.of_nat n <= round_max
    /\ play_rounds p1 p2 n (reset_world p1 p2 w) = Returns w_n
    /\ (forall (k : nat) w_k, (k < n)%nat ->
          play_rounds p1 p2 k (reset_world p1 p2 w) = Returns w_k ->
          1 + Z.of_nat k <= round_max
          /\ final_score (heap w_k p1) > elim_num
          /\ final_score (heap w_k p2) > elim_num)
    /\ ~ (1 + Z.of_nat n <= round_max
          /\ final_score (heap w_n p1) > elim_num
          /\ final_score (heap w_n p2) > elim_num)
    /\ match_loop p1 p2 elim_num round_max 1 (reset_world p1 p2 w)
       = Returns ((p1, p2, 1 + Z.of_nat n), w_n)
    /\ match_ p1 p2 elim_num round_max w = Returns (finish p1 p2 w_n).
Proof.
  intros Hmax.
  destruct (match_loop_spec p1 p2 elim_num round_max 1 (reset_world p1 p2 w))
    as (n & w_n & Hplay & Hloop & Hbefore & Hafter).
  destruct (match_spec p1 p2 elim_num round_max w)
    as (n' & w_n' & Hplay' & _ & _ & Hm).
  assert (Hsame : finish p1 p2 w_n' = finish p1 p2 w_n).
  { unfold match_ in Hm. unfold bind at 1 2 3 4, call in Hm. cbn [heap gen] in Hm.
    fold (reset_heap p1 p2 (heap w)) in Hm. fold (reset_world p1 p2 w) in Hm.
    rewrite (bind_eq _ _ _ _ _ Hloop) in Hm.
    unfold bind, attr, call, ret in Hm. unfold finish at 2.
    destruct (final_score (heap w_n p1) <=? final_score (heap w_n p2));
      injection Hm as <-; reflexivity. }
  rewrite Hsame in Hm.
  exists n, w_n. cbn [reset_world heap].
  rewrite reset_heap_score_1, reset_heap_score_2, reset_heap_turns_1, reset_heap_turns_2.
  do 4 (split; [reflexivity|]).
  split; [|split; [exact Hplay|split; [|split; [|split; [exact Hloop|exact Hm]]]]].
  - destruct n as [|n]; [lia|].
    destruct (play_rounds_returns p1 p2 n (reset_world p1 p2 w)) as (w_k & Hk & _).
    specialize (Hbefore n w_k ltac:(lia) Hk).
    apply match_cond_iff in Hbefore. lia.
  - intros k w_k Hk Hwk. apply match_cond_iff. apply Hbefore; assumption.
  - intros Hcont. apply match_cond_iff in Hcont. congruence.
Qed.

Lemma match_terminates_witness :
  0 < 100
  /\ exists (n : nat) w_n,
       final_score (heap (reset_world 0%nat 1%nat (fresh_world [NICE; GREEDY])) 0%nat) = 0
       /\ final_score (heap (reset_world 0%nat 1%nat (fresh_world [NICE; GREEDY])) 1%nat) = 0
       /\ turns (heap (reset_world 0%nat 1%nat (fresh_world [NICE; GREEDY])) 0%nat) = []
       /\ turns (heap (reset_world 0%nat 1%nat (fresh_world [NICE; GREEDY])) 1%nat) = []
       /\ Z.of_nat n <= 100
       /\ play_rounds 0%nat 1%nat n (reset_world 0%nat 1%nat (fresh_world [NICE; GREEDY]))
          = Returns w_n
       /\ (forall (k : nat) w_k, (k < n)%nat ->
             play_rounds 0%nat 1%nat k (reset_world 0%nat 1%nat (fresh_world [NICE; GREEDY]))
             = Returns w_k ->
             1 + Z.of_nat k <= 100
             /\ final_score (heap w_k 0%nat) > -1
             /\ final_score (heap w_k 1%nat) > -1)
       /\ ~ (1 + Z.of_nat n <= 100
             /\ final_score (heap w_n 0%nat) > -1
             /\ final_score (heap w_n 1%nat) > -1)
       /\ match_loop 0%nat 1%nat (-1) 100 1
            (reset_world 0%nat 1%nat (fresh_world [NICE; GREEDY]))
          = Returns ((0%nat, 1%nat, 1 + Z.of_nat n), w_n)
       /\ match_ 0%nat 1%nat (-1) 100 (fresh_world [NICE; GREEDY])
          = Returns (finish 0%nat 1%nat w_n).
Proof.
  split; [lia|].
  apply (match_terminates 0%nat 1%nat (-1) 100 (fresh_world [NICE; GREEDY])). lia.
Defined.

(** ** The bracket *)

(** C5. On a population of at least two prisoners, [set_up_matches] returns
    a list of as many prisoners, a permutation of the population (so without
    duplicates when the population has none).  The list is in the order of
    elimination: the loop plays the matches of [rounds], pass after pass and
    call after call, and no others; the list holds the losers of these
    matches in the order in which they were played, and ends with the winner.
    Just after the match number [k], counting from 0, the prisoners that the
    bracket has flagged are the first [k + 1] of the list, and no flag of
    another prisoner has changed; at the end the losers are all flagged, and
    no match has flagged the winner. *)
Theorem set_up_matches_permutes P elim_num round_max w :
  (2 <= length P)%nat ->
  exists r w',
    set_up_matches P elim_num round_max w = Returns (r, w')
    /\ length (returned r) = length P
    /\ returned r ≡ₚ P
    /\ (NoDup P -> NoDup (returned r))
    /\ exists rounds winner,
         bracket_trace elim_num round_max P w rounds [winner] w'
         /\ (forall rounds2 last2 w2,
               bracket_trace elim_num round_max P w rounds2 last2 w2 ->
               rounds2 = rounds /\ last2 = [winner] /\ w2 = w')
         /\ returned r = eliminated_in rounds ++ [winner]
         /\ (forall k pl,
               played rounds !! k = Some pl ->
               returned r !! k = Some (lost pl)
               /\ eliminates (take (S k) (returned r)) (heap w) (heap (world_after pl)))
         /\ (forall l, l ∈ eliminated_in rounds -> elim (heap w' l) = true)
         /\ (NoDup P -> elim (heap w' winner) = elim (heap w winner)).
Proof.
  intros HP.
  destruct (set_up_matches_trace elim_num round_max P w)
    as (rounds & winner & w' & Htr & Hr).
  { intros ->. cbn in HP. lia. }
  pose proof (bracket_trace_Permutation _ _ _ _ _ _ _ Htr) as Hperm.
  destruct (bracket_trace_flags _ _ _ _ _ _ _ Htr (heap w) [] (eliminates_nil _))
    as [Hend Hmid].
  cbn [app] in Hend, Hmid.
  exists (mkSetUp (eliminated_in rounds ++ [winner]) [winner]), w'. cbn [returned].
  split; [exact Hr|]. split; [apply Permutation_length; exact Hperm|].
  split; [exact Hperm|]. split; [intros Hnd; rewrite Hperm; exact Hnd|].
  exists rounds, winner. split; [exact Htr|].
  split; [intros rounds2 last2 w2 H2; exact (bracket_trace_unique _ _ _ _ _ _ _ _ _ _ Htr H2)|].
  split; [reflexivity|]. split; [|split].
  - intros k pl Hk.
    assert (Hlt : (k < length (eliminated_in rounds))%nat).
    { unfold eliminated_in. rewrite length_map. apply (lookup_lt_Some _ _ _ Hk). }
    split.
    + rewrite lookup_app_l by exact Hlt. apply lookup_map_Some. exact Hk.
    + rewrite take_app_le by lia. apply Hmid. exact Hk.
  - destruct Hend as (He1 & _). exact He1.
  - destruct Hend as (_ & He2 & _).
    intros Hnd. apply He2. rewrite <- Hperm in Hnd.
    apply NoDup_app in Hnd as (_ & Hdisj & _).
    intros Hin. apply (Hdisj winner Hin). apply list_elem_of_singleton. reflexivity.
Qed.

Lemma set_up_matches_permutes_witness :
  (2 <= length [0%nat; 1%nat; 2%nat])%nat
  /\ exists r w',
       set_up_matches [0%nat; 1%nat; 2%nat] (-10) 10 (fresh_world [NICE; GREEDY; TITFORTAT])
       = Returns (r, w')
       /\ length (returned r) = length [0%nat; 1%nat; 2%nat]
       /\ returned r ≡ₚ [0%nat; 1%nat; 2%nat]
       /\ (NoDup [0%nat; 1%nat; 2%nat] -> NoDup (returned r))
       /\ exists rounds winner,
            bracket_trace (-10) 10 [0%nat; 1%nat; 2%nat]
              (fresh_world [NICE; GREEDY; TITFORTAT]) rounds [winner] w'
            /\ (forall rounds2 last2 w2,
                  bracket_trace (-10) 10 [0%nat; 1%nat; 2%nat]
                    (fresh_world [NICE; GREEDY; TITFORTAT]) rounds2 last2 w2 ->
                  rounds2 = rounds /\ last2 = [winner] /\ w2 = w')
            /\ returned r = eliminated_in rounds ++ [winner]
            /\ (forall k pl,
                  played rounds !! k = Some pl ->
                  returned r !! k = Some (lost pl)
                  /\ eliminates (take (S k) (returned r))
                       (heap (fresh_world [NICE; GREEDY; TITFORTAT]))
                       (heap (world_after pl)))
            /\ (forall l, l ∈ eliminated_in rounds -> elim (heap w' l) = true)
            /\ (NoDup [0%nat; 1%nat; 2%nat] ->
                elim (heap w' winner)
                = elim (heap (fresh_world [NICE; GREEDY; TITFORTAT]) winner)).
Proof.
  split; [cbn; lia|].
  apply (set_up_matches_permutes [0%nat; 1%nat; 2%nat] (-10) 10
           (fresh_world [NICE; GREEDY; TITFORTAT])).
  cbn. lia.
Defined.



(** C2. The code never records an elimination round: no call of [match] and
    no call of [set_up_matches] changes the [elim_round] of any prisoner,
    whatever the scores.  With a fresh NICE and a fresh GREEDY prisoner, the
    elimination value -1 and at most 100 rounds, whatever the random
    generator draws, the only match stops after its first round because the
    score of NICE, -1, has reached the elimination value; NICE is returned
    first and is flagged, yet its [elim_round] is still 0, which [main]
    prints as the round of elimination and explains as not eliminated
    through the elimination value. *)
Theorem set_up_matches_keeps_elim_round :
  (forall P elim_num round_max w,
     match set_up_matches P elim_num round_max w with
     | Returns (_, w') => forall l, elim_round (heap w' l) = elim_round (heap w l)
     | Raises _ => P = []
     end)
  /\ (forall p1 p2 elim_num round_max w,
        match match_ p1 p2 elim_num round_max w with
        | Returns (_, w') => forall l, elim_round (heap w' l) = elim_round (heap w l)
        | Raises _ => False
        end)
  /\ (forall g,
        match set_up_matches [0%nat; 1%nat] (-1) 100
                (mkWorld (heap (fresh_world [NICE; GREEDY])) g) with
        | Returns (r, w') =>
            returned r = [0%nat; 1%nat]
            /\ elim (heap w' 0%nat) = true
            /\ turns (heap w' 0%nat) = [true]
            /\ turns (heap w' 1%nat) = [false]
            /\ final_score (heap w' 0%nat) = -1
            /\ final_score (heap w' 1%nat) = 3
            /\ final_score (heap w' 0%nat) <= -1
            /\ Z.of_nat (length (turns (heap w' 0%nat))) < 100
            /\ elim_round (heap w' 0%nat) = 0
            /\ elim (heap w' 1%nat) = false
            /\ elim_round (heap w' 1%nat) = 0
        | Raises _ => False
        end).
Proof.
  split; [|split].
  - intros P elim_num round_max w. destruct P as [|a P].
    + rewrite set_up_matches_empty. reflexivity.
    + destruct (set_up_matches_spec elim_num round_max (a :: P) w)
        as (rounds & winner & w' & Hr & _ & _ & _ & _ & He3 & _); [discriminate|].
      rewrite Hr. exact He3.
  - intros p1 p2 elim_num round_max w.
    destruct (match_effect p1 p2 elim_num round_max w)
      as (winner & loser & w' & Hm & _ & _ & _ & He3 & _).
    rewrite Hm. exact He3.
  - intros g. unfold set_up_matches. cbn [app].
    unfold bind at 1. rewrite matches_while_step. cbn [current_winners].
    change (1 <? len [0%nat; 1%nat]) with true. cbv iota.
    unfold bracket_round. cbn [prisoners final_prisoners].
    unfold bind at 1. unfold random_shuffle. cbn [gen heap].
    unfold shuffle. cbn [length shuffle_from Nat.sub]. unfold randbelow.
    pose proof (Nat.mod_upper_bound (tape g (cursor g)) 2 ltac:(lia)) as Hub.
    destruct (tape g (cursor g) mod 2)%nat as [|[|k]] eqn:E; [| |lia];
      vm_compute; repeat split; discriminate.
Qed.

(** * Further properties *)

(** ** The decisions of the other strategies *)

Lemma py_index_middle {A} (pre l : list A) a :
  py_index (pre ++ a :: l) (Z.of_nat (length pre)) = Returns a.
Proof.
  destruct (py_index_nonneg (pre ++ a :: l) (Z.of_nat (length pre))) as (b & Hb & Hl).
  { unfold len. rewrite length_app. cbn [length]. lia. }
  rewrite Hb. rewrite Nat2Z.id, lookup_app_r, Nat.sub_diag in Hl by lia.
  change (Some a = Some b) in Hl. congruence.
Qed.

Lemma average_loop_tally (pre l : list bool) ave :
  average_loop (pre ++ l)
    (map (fun k => Z.of_nat (length pre + k)) (seq 0 (length l))) ave
  = Returns (ave + Z.of_nat (cooperations l) - Z.of_nat (defections l)).
Proof.
  revert pre ave. induction l as [|t l IH]; intros pre ave.
  - cbn. f_equal. lia.
  - cbn [length seq map average_loop]. rewrite Nat.add_0_r, py_index_middle.
    cbn [obind]. rewrite <- seq_shift, map_map.
    assert (Hidx : map (fun k => Z.of_nat (length pre + S k)) (seq 0 (length l))
                   = map (fun k => Z.of_nat (length (pre ++ [t]) + k)) (seq 0 (length l))).
    { apply map_ext. intros k. rewrite length_app. cbn [length]. f_equal. lia. }
    rewrite Hidx. change (pre ++ t :: l) with (pre ++ [t] ++ l). rewrite app_assoc.
    unfold cooperations, defections.
    destruct t; rewrite IH; unfold cooperations, defections; cbn [count_occ];
      repeat match goal with |- context [Bool.bool_dec ?a ?b] =>
               destruct (Bool.bool_dec a b); try congruence end;
      f_equal; lia.
Qed.

Lemma average_strategy_majority turns :
  average_strategy turns = Returns (defections turns <=? cooperations turns)%nat.
Proof.
  unfold average_strategy. destruct (len turns =? 0) eqn:E.
  - apply Z.eqb_eq in E. destruct turns; [reflexivity|unfold len in E; cbn in E; lia].
  - unfold len. rewrite range_0.
    pose proof (average_loop_tally [] turns 0) as H. cbn [app length Nat.add] in H.
    change (fun k : nat => Z.of_nat k) with Z.of_nat in H.
    rewrite H. cbn [obind].
    destruct (0 + Z.of_nat (cooperations turns) - Z.of_nat (defections turns) >=? 0) eqn:G;
      f_equal; symmetry.
    + apply Nat.leb_le. apply Z.geb_le in G. lia.
    + apply Nat.leb_gt. rewrite Z.geb_leb in G. apply Z.leb_gt in G. lia.
Qed.

Lemma decide_NICE turns our_turns w :
  strategy_to_payoff NICE turns our_turns w = Returns (true, w).
Proof.
  unfold strategy_to_payoff.
  rewrite (bind_eq _ _ _ _ _ (last_move_reads our_turns w)). reflexivity.
Qed.

Lemma decide_GREEDY turns our_turns w :
  strategy_to_payoff GREEDY turns our_turns w = Returns (false, w).
Proof.
  unfold strategy_to_payoff.
  rewrite (bind_eq _ _ _ _ _ (last_move_reads our_turns w)). reflexivity.
Qed.

Lemma decide_TITFORTAT turns our_turns w :
  strategy_to_payoff TITFORTAT turns our_turns w
  = Returns (match last turns with Some b => b | None => true end, w).
Proof.
  unfold strategy_to_payoff.
  rewrite (bind_eq _ _ _ _ _ (last_move_reads our_turns w)). cbn [value Z.eqb Pos.eqb].
  destruct turns as [|b l _] using rev_ind; [reflexivity|].
  rewrite len_app, last_snoc. unfold len. cbn [length].
  destruct (Z.of_nat (length l) + Z.of_nat 1 =? 0) eqn:E; [apply Z.eqb_eq in E; lia|].
  unfold lift. rewrite py_index_last. reflexivity.
Qed.

Lemma decide_NICEUNTIL turns our_turns w :
  strategy_to_payoff NICEUNTIL turns our_turns w
  = Returns (NiceUntilNot_spec our_turns turns, w).
Proof.
  unfold strategy_to_payoff.
  rewrite (bind_eq _ _ _ _ _ (last_move_reads our_turns w)). cbn [value Z.eqb Pos.eqb].
  unfold lift. rewrite (nice_until_not_spec (last our_turns) our_turns turns eq_refl).
  reflexivity.
Qed.

Lemma decide_AVESTRAT turns our_turns w :
  strategy_to_payoff AVESTRAT turns our_turns w
  = Returns ((defections turns <=? cooperations turns)%nat, w).
Proof.
  unfold strategy_to_payoff.
  rewrite (bind_eq _ _ _ _ _ (last_move_reads our_turns w)). cbn [value Z.eqb Pos.eqb].
  unfold lift. rewrite average_strategy_majority. reflexivity.
Qed.

Lemma decide_RANSTRAT_empty our_turns w :
  strategy_to_payoff RANSTRAT [] our_turns w = Returns (true, w).
Proof.
  unfold strategy_to_payoff.
  rewrite (bind_eq _ _ _ _ _ (last_move_reads our_turns w)). reflexivity.
Qed.

Lemma decide_RANSTRAT turns our_turns w :
  turns <> [] ->
  exists b,
    turns !! (tape (gen w) (cursor (gen w)) mod length turns)%nat = Some b
    /\ strategy_to_payoff RANSTRAT turns our_turns w
       = Returns (b, mkWorld (heap w) (advance (gen w))).
Proof.
  intros Hne. unfold strategy_to_payoff.
  rewrite (bind_eq _ _ _ _ _ (last_move_reads our_turns w)). cbn [value Z.eqb Pos.eqb].
  assert (Hlen : (0 < length turns)%nat) by (destruct turns; [congruence|cbn; lia]).
  destruct (len turns =? 0) eqn:E; [apply Z.eqb_eq in E; unfold len in E; lia|].
  unfold bind, randint, randbelow.
  replace (Z.to_nat (len turns - 1 - 0 + 1)) with (length turns) by (unfold len; lia).
  pose proof (Nat.mod_upper_bound (tape (gen w) (cursor (gen w))) (length turns)
                ltac:(lia)) as Hlt.
  destruct (py_index_nonneg turns
              (0 + Z.of_nat (tape (gen w) (cursor (gen w)) mod length turns)))
    as (b & Hb & Hl); [unfold len; lia|].
  exists b. rewrite Z.add_0_l, Nat2Z.id in Hl. split; [exact Hl|].
  unfold lift. rewrite Hb. reflexivity.
Qed.

Lemma decide_RANDOM turns our_turns w :
  strategy_to_payoff RANDOM turns our_turns w
  = Returns (negb (tape (gen w) (cursor (gen w)) mod 2 =? 0)%nat,
             mkWorld (heap w) (advance (gen w))).
Proof.
  unfold strategy_to_payoff.
  rewrite (bind_eq _ _ _ _ _ (last_move_reads our_turns w)). cbn [value Z.eqb Pos.eqb].
  unfold bind, getrandbits, randbelow, ret, bool_of_int, advance.
  change (2 ^ 1)%nat with 2%nat. do 3 f_equal.
  destruct (tape (gen w) (cursor (gen w)) mod 2 =? 0)%nat eqn:E.
  - apply Nat.eqb_eq in E. rewrite E. reflexivity.
  - apply Nat.eqb_neq in E. apply Z.eqb_neq. lia.
Qed.

Lemma decide_USER turns our_turns w :
  strategy_to_payoff USER turns our_turns w = Returns (false, w).
Proof.
  unfold strategy_to_payoff.
  rewrite (bind_eq _ _ _ _ _ (last_move_reads our_turns w)). reflexivity.
Qed.

(** X1. NICE always cooperates and GREEDY always defects, whatever the two
    histories; TITFORTAT cooperates against an empty history and otherwise
    repeats the opponent's last move, whatever its own history.  None of them
    changes a prisoner or draws from the generator. *)
Theorem constant_and_mirror_decisions turns our_turns w :
  strategy_to_payoff NICE turns our_turns w = Returns (true, w)
  /\ strategy_to_payoff GREEDY turns our_turns w = Returns (false, w)
  /\ strategy_to_payoff TITFORTAT [] our_turns w = Returns (true, w)
  /\ (forall b, strategy_to_payoff TITFORTAT (turns ++ [b]) our_turns w = Returns (b, w)).
Proof.
  split; [apply decide_NICE|]. split; [apply decide_GREEDY|].
  split; [apply decide_TITFORTAT|].
  intros b. rewrite decide_TITFORTAT, last_snoc. reflexivity.
Qed.

(** X2. AVESTRAT cooperates exactly when the opponent's history holds at
    least as many cooperations as defections; so it cooperates against an
    empty history and on a draw.  It never raises and draws nothing. *)
Theorem average_follows_the_majority turns our_turns w :
  strategy_to_payoff AVESTRAT turns our_turns w
  = Returns ((defections turns <=? cooperations turns)%nat, w).
Proof.
  unfold strategy_to_payoff.
  rewrite (bind_eq _ _ _ _ _ (last_move_reads our_turns w)). cbn [value Z.eqb Pos.eqb].
  unfold lift. rewrite average_strategy_majority. reflexivity.
Qed.

(** X3. RANSTRAT cooperates against an empty history without drawing.
    Against a history that is not empty it makes one draw and replays the
    move found at that draw's index, taken modulo the length: a move the
    opponent has really played. *)
Theorem random_from_history_replays turns our_turns w :
  turns <> [] ->
  strategy_to_payoff RANSTRAT [] our_turns w = Returns (true, w)
  /\ exists b,
       turns !! (tape (gen w) (cursor (gen w)) mod length turns)%nat = Some b
       /\ b ∈ turns
       /\ strategy_to_payoff RANSTRAT turns our_turns w
          = Returns (b, mkWorld (heap w) (advance (gen w))).
Proof.
  intros Hne. split; [apply decide_RANSTRAT_empty|].
  destruct (decide_RANSTRAT turns our_turns w Hne) as (b & Hl & Hd).
  exists b. split; [exact Hl|]. split; [|exact Hd].
  apply list_elem_of_lookup. eauto.
Qed.

Lemma random_from_history_replays_witness :
  [false; true] <> []
  /\ strategy_to_payoff RANSTRAT [] [] (fresh_world []) = Returns (true, fresh_world [])
  /\ exists b,
       [false; true] !! (tape (gen (fresh_world [])) (cursor (gen (fresh_world [])))
                         mod length [false; true])%nat = Some b
       /\ b ∈ [false; true]
       /\ strategy_to_payoff RANSTRAT [false; true] [] (fresh_world [])
          = Returns (b, mkWorld (heap (fresh_world [])) (advance (gen (fresh_world [])))).
Proof.
  split; [discriminate|].
  apply (random_from_history_replays [false; true] [] (fresh_world [])). discriminate.
Defined.

(** X4. A decision never raises and never changes a prisoner, whatever the
    strategy and the histories.  It makes exactly one draw when the strategy
    is RANDOM, or RANSTRAT against a history that is not empty, and no draw
    otherwise. *)
Theorem decision_draws strat turns our_turns w :
  exists b,
    strategy_to_payoff strat turns our_turns w
    = Returns (b, if draws strat turns then mkWorld (heap w) (advance (gen w)) else w).
Proof.
  destruct strat; cbn [draws].
  - eexists. apply decide_NICE.
  - eexists. apply decide_GREEDY.
  - eexists. apply decide_TITFORTAT.
  - eexists. apply decide_NICEUNTIL.
  - eexists. apply decide_AVESTRAT.
  - destruct turns as [|t turns].
    + eexists. apply decide_RANSTRAT_empty.
    + destruct (decide_RANSTRAT (t :: turns) our_turns w) as (b & _ & Hd); [discriminate|].
      exists b. exact Hd.
  - eexists. apply decide_RANDOM.
  - eexists. apply decide_USER.
Qed.

(** ** Turns, again *)

(** A turn between two strategies, with the two decisions it rests on. *)
Lemma dilemma_decides p1 p2 userchoice w :
  exists c1 g1 c2 g2,
    strategy_to_payoff (strategy (heap w p1)) (turns (heap w p2)) (turns (heap w p1)) w
    = Returns (c1, mkWorld (heap w) g1)
    /\ strategy_to_payoff (strategy (heap w p2)) (turns (heap w p1)) (turns (heap w p2))
         (mkWorld (heap w) g1)
       = Returns (c2, mkWorld (heap w) g2)
    /\ dilemma p1 p2 false userchoice w
       = Returns ((p1, p2), mkWorld (turn_heap p1 p2 c1 c2 (heap w)) g2).
Proof.
  destruct (strategy_to_payoff_returns (strategy (heap w p1)) (turns (heap w p2))
              (turns (heap w p1)) w) as (c1 & g1 & H1).
  destruct (strategy_to_payoff_returns (strategy (heap w p2)) (turns (heap w p1))
              (turns (heap w p2)) (mkWorld (heap w) g1)) as (c2 & g2 & H2).
  cbn [heap] in H2.
  exists c1, g1, c2, g2. split; [exact H1|]. split; [exact H2|].
  unfold dilemma, bind at 1 2 3, attr.
  unfold bind at 1. rewrite H1.
  cbn [negb]. unfold bind at 1 2 3 4, attr. cbn [heap].
  rewrite H2. reflexivity.
Qed.

(** A turn against the user. *)
Lemma dilemma_user_decides p1 p2 userchoice w :
  exists c1 g1,
    strategy_to_payoff (strategy (heap w p1)) (turns (heap w p2)) (turns (heap w p1)) w
    = Returns (c1, mkWorld (heap w) g1)
    /\ dilemma p1 p2 true userchoice w
       = Returns ((p1, p2),
                  mkWorld (turn_heap p1 p2 c1 (truthy userchoice) (heap w)) g1).
Proof.
  destruct (strategy_to_payoff_returns (strategy (heap w p1)) (turns (heap w p2))
              (turns (heap w p1)) w) as (c1 & g1 & H1).
  exists c1, g1. split; [exact H1|].
  unfold dilemma, bind at 1 2 3, attr.
  unfold bind at 1. rewrite H1. reflexivity.
Qed.

(** X5. A turn against the user never raises and never consults the second
    prisoner's strategy: the first prisoner decides from the two histories,
    the user's choice is recorded as the second prisoner's move ([None]
    counting as a defection), and the two scores grow by the payoffs of the
    two moves.  Nothing is reset: histories and scores build up over the
    turns. *)
Theorem dilemma_against_user p1 p2 userchoice w :
  p1 <> p2 ->
  exists c1 g1 w',
    strategy_to_payoff (strategy (heap w p1)) (turns (heap w p2)) (turns (heap w p1)) w
    = Returns (c1, mkWorld (heap w) g1)
    /\ dilemma p1 p2 true userchoice w = Returns ((p1, p2), w')
    /\ gen w' = g1
    /\ turns (heap w' p1) = turns (heap w p1) ++ [c1]
    /\ turns (heap w' p2) = turns (heap w p2) ++ [truthy userchoice]
    /\ final_score (heap w' p1)
       = final_score (heap w p1) + (payoff c1 (truthy userchoice)).1
    /\ final_score (heap w' p2)
       = final_score (heap w p2) + (payoff c1 (truthy userchoice)).2
    /\ (forall l, l <> p1 -> l <> p2 -> heap w' l = heap w l).
Proof.
  intros Hne.
  destruct (dilemma_user_decides p1 p2 userchoice w) as (c1 & g1 & H1 & Hd).
  exists c1, g1, (mkWorld (turn_heap p1 p2 c1 (truthy userchoice) (heap w)) g1).
  split; [exact H1|]. split; [exact Hd|]. split; [reflexivity|]. cbn [heap].
  destruct (turn_heap_fields p1 p2 c1 (truthy userchoice) (heap w) Hne)
    as (T1 & T2 & S1 & S2).
  do 4 (split; [assumption|]).
  intros l N1 N2. apply (turn_heap_plays p1 p2 c1 (truthy userchoice) (heap w) l);
    assumption.
Qed.

Lemma dilemma_against_user_witness :
  0%nat <> 1%nat
  /\ exists c1 g1 w',
       strategy_to_payoff (strategy (heap (fresh_world [TITFORTAT; USER]) 0%nat))
         (turns (heap (fresh_world [TITFORTAT; USER]) 1%nat))
         (turns (heap (fresh_world [TITFORTAT; USER]) 0%nat))
         (fresh_world [TITFORTAT; USER])
       = Returns (c1, mkWorld (heap (fresh_world [TITFORTAT; USER])) g1)
       /\ dilemma 0%nat 1%nat true (Some false) (fresh_world [TITFORTAT; USER])
          = Returns ((0%nat, 1%nat), w')
       /\ gen w' = g1
       /\ turns (heap w' 0%nat)
          = turns (heap (fresh_world [TITFORTAT; USER]) 0%nat) ++ [c1]
       /\ turns (heap w' 1%nat)
          = turns (heap (fresh_world [TITFORTAT; USER]) 1%nat) ++ [truthy (Some false)]
       /\ final_score (heap w' 0%nat)
          = final_score (heap (fresh_world [TITFORTAT; USER]) 0%nat)
            + (payoff c1 (truthy (Some false))).1
       /\ final_score (heap w' 1%nat)
          = final_score (heap (fresh_world [TITFORTAT; USER]) 1%nat)
            + (payoff c1 (truthy (Some false))).2
       /\ (forall l, l <> 0%nat -> l <> 1%nat ->
           heap w' l = heap (fresh_world [TITFORTAT; USER]) l).
Proof.
  split; [lia|].
  apply (dilemma_against_user 0%nat 1%nat (Some false) (fresh_world [TITFORTAT; USER])).
  lia.
Defined.

(** ** Scores and histories of a match *)

Lemma scores_snoc t1 t2 c1 c2 :
  length t1 = length t2 ->
  scores (t1 ++ [c1]) (t2 ++ [c2])
  = ((scores t1 t2).1 + (payoff c1 c2).1, (scores t1 t2).2 + (payoff c1 c2).2).
Proof.
  revert t2. induction t1 as [|a t1 IH]; intros [|b t2] Hl; try discriminate.
  - cbn [app scores fst snd]. f_equal; lia.
  - cbn [app scores fst snd]. rewrite IH by (cbn in Hl; lia). cbn [fst snd].
    f_equal; lia.
Qed.

Lemma payoff_bounds c1 c2 :
  -1 <= (payoff c1 c2).1 <= 5 /\ -1 <= (payoff c1 c2).2 <= 5.
Proof.
  destruct c1, c2; unfold payoff, neither_rat, rattee, ratter, both_rat;
    cbn [andb fst snd]; lia.
Qed.

Lemma tallied_reset p1 p2 h : tallied p1 p2 (reset_heap p1 p2 h).
Proof.
  unfold tallied.
  rewrite reset_heap_turns_1, reset_heap_turns_2, reset_heap_score_1, reset_heap_score_2.
  repeat split.
Qed.

Lemma tallied_turn p1 p2 c1 c2 h :
  p1 <> p2 -> tallied p1 p2 h -> tallied p1 p2 (turn_heap p1 p2 c1 c2 h).
Proof.
  intros Hne (Hl & H1 & H2).
  destruct (turn_heap_fields p1 p2 c1 c2 h Hne) as (T1 & T2 & S1 & S2).
  unfold tallied. rewrite T1, T2, S1, S2, scores_snoc by exact Hl.
  rewrite !length_app, Hl, H1, H2. repeat split.
Qed.

(** The last of [S k] turns. *)
Lemma play_rounds_last p1 p2 k w w' :
  play_rounds p1 p2 (S k) w = Returns w' ->
  exists w_k r,
    play_rounds p1 p2 k w = Returns w_k
    /\ dilemma p1 p2 false None w_k = Returns (r, w').
Proof.
  revert w. induction k as [|k IH]; intros w H.
  - cbn [play_rounds] in H |- *.
    destruct (dilemma p1 p2 false None w) as [[r w1]|e] eqn:Hd; [|discriminate].
    injection H as <-. exists w, r. split; [reflexivity|exact Hd].
  - cbn [play_rounds] in H.
    destruct (dilemma p1 p2 false None w) as [[r w1]|e] eqn:Hd; [|discriminate].
    change (play_rounds p1 p2 (S k) w1 = Returns w') in H.
    destruct (IH w1 H) as (w_k & r' & Hk & Hlast).
    exists w_k, r'. split; [|exact Hlast].
    cbn [play_rounds]. rewrite Hd. exact Hk.
Qed.

Lemma play_rounds_tallied p1 p2 n w w' :
  p1 <> p2 -> tallied p1 p2 (heap w) ->
  play_rounds p1 p2 n w = Returns w' ->
  tallied p1 p2 (heap w')
  /\ length (turns (heap w' p1)) = (length (turns (heap w p1)) + n)%nat.
Proof.
  intros Hne. revert w. induction n as [|n IH]; intros w Ht H.
  - injection H as <-. split; [exact Ht|lia].
  - cbn [play_rounds] in H.
    destruct (dilemma_returns p1 p2 None w) as (c1 & c2 & g & Hd). rewrite Hd in H.
    destruct (IH (mkWorld (turn_heap p1 p2 c1 c2 (heap w)) g)
                (tallied_turn p1 p2 c1 c2 (heap w) Hne Ht) H) as (Ht' & Hl').
    split; [exact Ht'|]. rewrite Hl'. cbn [heap].
    destruct (turn_heap_fields p1 p2 c1 c2 (heap w) Hne) as (T1 & _).
    rewrite T1, length_app. cbn [length]. lia.
Qed.

(** What the end of a match keeps: every history and every score. *)
Lemma finish_fields p1 p2 w l :
  turns (heap (finish p1 p2 w).2 l) = turns (heap w l)
  /\ final_score (heap (finish p1 p2 w).2 l) = final_score (heap w l).
Proof.
  unfold finish.
  destruct (final_score (heap w p1) <=? final_score (heap w p2)); cbn [snd heap];
    rewrite eliminated_turns, eliminated_score; split; reflexivity.
Qed.

(** A match between two distinct prisoners, with its number of rounds. *)
Lemma match_rounds p1 p2 elim_num round_max w :
  p1 <> p2 ->
  exists (n : nat) w_n,
    match_ p1 p2 elim_num round_max w = Returns (finish p1 p2 w_n)
    /\ play_rounds p1 p2 n (reset_world p1 p2 w) = Returns w_n
    /\ tallied p1 p2 (heap w_n)
    /\ length (turns (heap w_n p1)) = n
    /\ Z.of_nat n <= Z.max 0 round_max
    /\ (Z.of_nat n < round_max ->
        final_score (heap w_n p1) <= elim_num \/ final_score (heap w_n p2) <= elim_num)
    /\ Z.min 0 elim_num <= final_score (heap w_n p1)
    /\ Z.min 0 elim_num <= final_score (heap w_n p2).
Proof.
  intros Hne.
  destruct (match_spec p1 p2 elim_num round_max w)
    as (n & w_n & Hplay & Hbefore & Hafter & Hm).
  exists n, w_n. split; [exact Hm|]. split; [exact Hplay|].
  destruct (play_rounds_tallied p1 p2 n (reset_world p1 p2 w) w_n Hne
              (tallied_reset p1 p2 (heap w)) Hplay) as (Ht & Hl).
  cbn [reset_world heap] in Hl. rewrite reset_heap_turns_1 in Hl. cbn [length] in Hl.
  split; [exact Ht|]. split; [lia|].
  assert (Hlast : n = 0%nat
                  \/ exists k w_k c1 c2 g,
                       n = S k
                       /\ match_cond p1 p2 elim_num round_max (1 + Z.of_nat k) w_k = true
                       /\ w_n = mkWorld (turn_heap p1 p2 c1 c2 (heap w_k)) g).
  { destruct n as [|k]; [left; reflexivity|right].
    destruct (play_rounds_last p1 p2 k _ _ Hplay) as (w_k & r & Hk & Hd).
    destruct (dilemma_returns p1 p2 None w_k) as (c1 & c2 & g & Hd').
    rewrite Hd' in Hd. injection Hd as _ <-.
    exists k, w_k, c1, c2, g. split; [reflexivity|].
    split; [apply Hbefore; [lia|exact Hk]|reflexivity]. }
  split; [|split].
  - destruct Hlast as [->|(k & w_k & c1 & c2 & g & -> & Hc & _)]; [lia|].
    apply match_cond_iff in Hc. lia.
  - intros Hlt.
    destruct (match_cond p1 p2 elim_num round_max (1 + Z.of_nat n) w_n) eqn:E;
      [discriminate|].
    unfold match_cond in E. apply andb_false_iff in E as [E|E].
    + apply andb_false_iff in E as [E|E].
      * apply Z.leb_gt in E. lia.
      * left. rewrite Z.gtb_ltb in E. apply Z.ltb_ge in E. exact E.
    + right. rewrite Z.gtb_ltb in E. apply Z.ltb_ge in E. exact E.
  - destruct Hlast as [->|(k & w_k & c1 & c2 & g & -> & Hc & ->)].
    + injection Hplay as <-. cbn [reset_world heap].
      rewrite reset_heap_score_1, reset_heap_score_2. lia.
    + apply match_cond_iff in Hc as (_ & Hs1 & Hs2). cbn [heap].
      destruct (turn_heap_fields p1 p2 c1 c2 (heap w_k) Hne) as (_ & _ & S1 & S2).
      rewrite S1, S2. pose proof (payoff_bounds c1 c2). lia.
Qed.

Lemma finish_pair p1 p2 w :
  (final_score (heap w p1) <= final_score (heap w p2) -> (finish p1 p2 w).1 = (p2, p1))
  /\ (final_score (heap w p2) < final_score (heap w p1) -> (finish p1 p2 w).1 = (p1, p2)).
Proof.
  unfold finish.
  destruct (final_score (heap w p1) <=? final_score (heap w p2)) eqn:E.
  - apply Z.leb_le in E. split; [reflexivity|lia].
  - apply Z.leb_gt in E. split; [lia|reflexivity].
Qed.

(** A match between two distinct prisoners, seen from the heap it leaves. *)
Lemma match_summary p1 p2 elim_num round_max w :
  p1 <> p2 ->
  exists r w',
    match_ p1 p2 elim_num round_max w = Returns (r, w')
    /\ tallied p1 p2 (heap w')
    /\ Z.of_nat (length (turns (heap w' p1))) <= Z.max 0 round_max
    /\ (Z.of_nat (length (turns (heap w' p1))) < round_max ->
        final_score (heap w' p1) <= elim_num \/ final_score (heap w' p2) <= elim_num)
    /\ Z.min 0 elim_num <= final_score (heap w' p1)
    /\ Z.min 0 elim_num <= final_score (heap w' p2)
    /\ (final_score (heap w' p1) <= final_score (heap w' p2) -> r = (p2, p1))
    /\ (final_score (heap w' p2) < final_score (heap w' p1) -> r = (p1, p2)).
Proof.
  intros Hne.
  destruct (match_rounds p1 p2 elim_num round_max w Hne)
    as (n & w_n & Hm & _ & (Tl & T1 & T2) & Hl & Hn & Hstop & B1 & B2).
  exists (finish p1 p2 w_n).1, (finish p1 p2 w_n).2.
  split; [rewrite Hm; destruct (finish p1 p2 w_n); reflexivity|].
  destruct (finish_fields p1 p2 w_n p1) as (F1 & G1).
  destruct (finish_fields p1 p2 w_n p2) as (F2 & G2).
  unfold tallied. rewrite F1, F2, G1, G2, Hl.
  destruct (finish_pair p1 p2 w_n) as (P1 & P2).
  split; [split; [lia|split; assumption]|].
  do 5 (split; [assumption|]). assumption.
Qed.

(** X6. After a match between two distinct prisoners, the two histories have
    the same length, which is the number of rounds played and at most the
    round limit, and each score is the sum of the payoffs of the recorded
    turns: nothing of the scores or histories the prisoners had before the
    match is left. *)
Theorem match_scores_sum_the_turns p1 p2 elim_num round_max w :
  p1 <> p2 ->
  exists r w',
    match_ p1 p2 elim_num round_max w = Returns (r, w')
    /\ length (turns (heap w' p1)) = length (turns (heap w' p2))
    /\ Z.of_nat (length (turns (heap w' p1))) <= Z.max 0 round_max
    /\ final_score (heap w' p1) = (scores (turns (heap w' p1)) (turns (heap w' p2))).1
    /\ final_score (heap w' p2) = (scores (turns (heap w' p1)) (turns (heap w' p2))).2.
Proof.
  intros Hne.
  destruct (match_summary p1 p2 elim_num round_max w Hne)
    as (r & w' & Hm & (Tl & T1 & T2) & Hn & _).
  exists r, w'. repeat split; assumption.
Qed.

Lemma match_scores_sum_the_turns_witness :
  0%nat <> 1%nat
  /\ exists r w',
       match_ 0%nat 1%nat (-3) 20 (fresh_world [TITFORTAT; RANDOM]) = Returns (r, w')
       /\ length (turns (heap w' 0%nat)) = length (turns (heap w' 1%nat))
       /\ Z.of_nat (length (turns (heap w' 0%nat))) <= Z.max 0 20
       /\ final_score (heap w' 0%nat)
          = (scores (turns (heap w' 0%nat)) (turns (heap w' 1%nat))).1
       /\ final_score (heap w' 1%nat)
          = (scores (turns (heap w' 0%nat)) (turns (heap w' 1%nat))).2.
Proof.
  split; [lia|].
  apply (match_scores_sum_the_turns 0%nat 1%nat (-3) 20 (fresh_world [TITFORTAT; RANDOM])).
  lia.
Defined.

(** X7. A match between two distinct prisoners never leaves a score below
    the elimination threshold when the threshold is negative, nor below 0
    otherwise; and when it stops before the round limit, one of the two
    scores is at or below the threshold. *)
Theorem match_stops_at_the_threshold p1 p2 elim_num round_max w :
  p1 <> p2 ->
  exists r w',
    match_ p1 p2 elim_num round_max w = Returns (r, w')
    /\ Z.min 0 elim_num <= final_score (heap w' p1)
    /\ Z.min 0 elim_num <= final_score (heap w' p2)
    /\ (Z.of_nat (length (turns (heap w' p1))) < round_max ->
        final_score (heap w' p1) <= elim_num \/ final_score (heap w' p2) <= elim_num).
Proof.
  intros Hne.
  destruct (match_summary p1 p2 elim_num round_max w Hne)
    as (r & w' & Hm & _ & _ & Hstop & B1 & B2 & _).
  exists r, w'. repeat split; assumption.
Qed.

Lemma match_stops_at_the_threshold_witness :
  0%nat <> 1%nat
  /\ exists r w',
       match_ 0%nat 1%nat (-3) 20 (fresh_world [NICE; GREEDY]) = Returns (r, w')
       /\ Z.min 0 (-3) <= final_score (heap w' 0%nat)
       /\ Z.min 0 (-3) <= final_score (heap w' 1%nat)
       /\ (Z.of_nat (length (turns (heap w' 0%nat))) < 20 ->
           final_score (heap w' 0%nat) <= -3 \/ final_score (heap w' 1%nat) <= -3).
Proof.
  split; [lia|].
  apply (match_stops_at_the_threshold 0%nat 1%nat (-3) 20 (fresh_world [NICE; GREEDY])).
  lia.
Defined.

(** X8. A match of a prisoner against itself always ends in a tie: the
    prisoner is returned both as winner and as loser, and is flagged as
    eliminated. *)
Theorem match_against_oneself a elim_num round_max w :
  exists w',
    match_ a a elim_num round_max w = Returns ((a, a), w')
    /\ elim (heap w' a) = true.
Proof.
  destruct (match_finish a a elim_num round_max w) as (w_n & Hm & _).
  unfold finish in Hm. rewrite Z.leb_refl in Hm.
  eexists. split; [exact Hm|]. cbn [heap]. rewrite update_same. reflexivity.
Qed.

(** ** Matches between strategies that never defect first *)

Lemma defections_replicate_true k : defections (replicate k true) = 0%nat.
Proof. induction k as [|k IH]; [reflexivity|]. cbn. exact IH. Qed.

Lemma cooperative_decision s k w :
  never_defects_first s = true ->
  exists g,
    strategy_to_payoff s (replicate k true) (replicate k true) w
    = Returns (true, mkWorld (heap w) g).
Proof.
  intros Hs. assert (Hw : w = mkWorld (heap w) (gen w)) by (destruct w; reflexivity).
  destruct s; try discriminate Hs.
  - exists (gen w). rewrite decide_NICE, Hw at 1. reflexivity.
  - exists (gen w). rewrite decide_TITFORTAT, Hw at 1.
    destruct k as [|k]; [reflexivity|]. rewrite replicate_S_end, last_snoc. reflexivity.
  - exists (gen w). rewrite decide_NICEUNTIL, Hw at 1.
    destruct k as [|k]; [reflexivity|]. unfold NiceUntilNot_spec.
    rewrite replicate_S_end, !last_snoc. reflexivity.
  - exists (gen w). rewrite decide_AVESTRAT, Hw at 1.
    rewrite defections_replicate_true. reflexivity.
  - destruct k as [|k].
    + exists (gen w). cbn [replicate]. rewrite decide_RANSTRAT_empty, Hw at 1. reflexivity.
    + destruct (decide_RANSTRAT (replicate (S k) true) (replicate (S k) true) w)
        as (b & Hl & Hd); [discriminate|].
      assert (Hb : b = true).
      { apply (elem_of_replicate_inv b (S k) true). apply list_elem_of_lookup. eauto. }
      subst b. eexists. exact Hd.
Qed.

Lemma cooperative_rounds p1 p2 n : forall j w w',
  p1 <> p2 ->
  never_defects_first (strategy (heap w p1)) = true ->
  never_defects_first (strategy (heap w p2)) = true ->
  all_cooperate p1 p2 j (heap w) ->
  play_rounds p1 p2 n w = Returns w' ->
  all_cooperate p1 p2 (j + n) (heap w').
Proof.
  induction n as [|n IH]; intros j w w' Hne Hs1 Hs2 Hc H.
  - injection H as <-. rewrite Nat.add_0_r. exact Hc.
  - cbn [play_rounds] in H.
    destruct (dilemma_decides p1 p2 None w) as (c1 & g1 & c2 & g2 & H1 & H2 & Hd).
    rewrite Hd in H. destruct Hc as (T1 & T2 & S1 & S2).
    rewrite T1, T2 in H1, H2.
    destruct (cooperative_decision _ j w Hs1) as (g1' & E1).
    destruct (cooperative_decision _ j (mkWorld (heap w) g1) Hs2) as (g2' & E2).
    rewrite E1 in H1. rewrite E2 in H2.
    injection H1 as <- _. injection H2 as <- _.
    replace (j + S n)%nat with (S j + n)%nat by lia.
    pose proof (turn_heap_plays p1 p2 true true (heap w)) as Hp.
    destruct (turn_heap_fields p1 p2 true true (heap w) Hne) as (F1 & F2 & G1 & G2).
    apply (IH (S j) (mkWorld (turn_heap p1 p2 true true (heap w)) g2) w' Hne);
      [| | |exact H]; cbn [heap].
    + rewrite (proj1 (Hp p1)). exact Hs1.
    + rewrite (proj1 (Hp p2)). exact Hs2.
    + unfold all_cooperate. rewrite F1, F2, G1, G2, T1, T2, S1, S2, replicate_S_end.
      change (payoff true true) with (5, 5). cbn [fst snd].
      repeat split; lia.
Qed.

(** X9. When both strategies never defect first (NICE, TITFORTAT, NICEUNTIL,
    AVESTRAT or RANSTRAT) and the threshold is negative, a match between two
    distinct prisoners plays every round up to the limit, every move is a
    cooperation and both prisoners end with 5 points a round; the tie
    eliminates the first prisoner. *)
Theorem match_of_cooperators p1 p2 elim_num round_max w :
  p1 <> p2 ->
  never_defects_first (strategy (heap w p1)) = true ->
  never_defects_first (strategy (heap w p2)) = true ->
  elim_num < 0 ->
  0 <= round_max ->
  exists w',
    match_ p1 p2 elim_num round_max w = Returns ((p2, p1), w')
    /\ turns (heap w' p1) = replicate (Z.to_nat round_max) true
    /\ turns (heap w' p2) = replicate (Z.to_nat round_max) true
    /\ final_score (heap w' p1) = 5 * round_max
    /\ final_score (heap w' p2) = 5 * round_max
    /\ elim (heap w' p1) = true.
Proof.
  intros Hne Hs1 Hs2 He Hm.
  destruct (match_spec p1 p2 elim_num round_max w)
    as (n & w_n & Hplay & Hbefore & Hafter & Hmatch).
  pose proof (reset_heap_plays p1 p2 (heap w)) as Hp.
  assert (Hr1 : never_defects_first (strategy (heap (reset_world p1 p2 w) p1)) = true).
  { cbn [reset_world heap]. rewrite (proj1 (Hp p1)). exact Hs1. }
  assert (Hr2 : never_defects_first (strategy (heap (reset_world p1 p2 w) p2)) = true).
  { cbn [reset_world heap]. rewrite (proj1 (Hp p2)). exact Hs2. }
  assert (H0 : all_cooperate p1 p2 0 (heap (reset_world p1 p2 w))).
  { unfold all_cooperate. cbn [reset_world heap].
    rewrite reset_heap_turns_1, reset_heap_turns_2, reset_heap_score_1, reset_heap_score_2.
    repeat split. }
  pose proof (cooperative_rounds p1 p2 n 0 _ _ Hne Hr1 Hr2 H0 Hplay) as Hn.
  cbn [Nat.add] in Hn. destruct Hn as (T1 & T2 & S1 & S2).
  assert (Hrounds : n = Z.to_nat round_max).
  { assert (Hup : Z.of_nat n <= round_max).
    { destruct n as [|k]; [lia|].
      destruct (play_rounds_returns p1 p2 k (reset_world p1 p2 w)) as (w_k & Hk & _).
      specialize (Hbefore k w_k ltac:(lia) Hk). apply match_cond_iff in Hbefore. lia. }
    destruct (match_cond p1 p2 elim_num round_max (1 + Z.of_nat n) w_n) eqn:E;
      [discriminate|].
    assert (Hnot : ~ (1 + Z.of_nat n <= round_max)).
    { intros Hle. assert (Hc : match_cond p1 p2 elim_num round_max (1 + Z.of_nat n) w_n = true).
      { apply match_cond_iff. rewrite S1, S2. lia. }
      congruence. }
    lia. }
  unfold finish in Hmatch. rewrite S1, S2, Z.leb_refl in Hmatch.
  eexists. split; [exact Hmatch|]. cbn [heap].
  rewrite !eliminated_turns, !eliminated_score, T1, T2, S1, S2, update_same, Hrounds.
  repeat split; try reflexivity; lia.
Qed.

Lemma match_of_cooperators_witness :
  0%nat <> 1%nat
  /\ never_defects_first (strategy (heap (fresh_world [NICEUNTIL; RANSTRAT]) 0%nat)) = true
  /\ never_defects_first (strategy (heap (fresh_world [NICEUNTIL; RANSTRAT]) 1%nat)) = true
  /\ -10 < 0
  /\ 0 <= 10
  /\ exists w',
       match_ 0%nat 1%nat (-10) 10 (fresh_world [NICEUNTIL; RANSTRAT])
       = Returns ((1%nat, 0%nat), w')
       /\ turns (heap w' 0%nat) = replicate (Z.to_nat 10) true
       /\ turns (heap w' 1%nat) = replicate (Z.to_nat 10) true
       /\ final_score (heap w' 0%nat) = 5 * 10
       /\ final_score (heap w' 1%nat) = 5 * 10
       /\ elim (heap w' 0%nat) = true.
Proof.
  split; [lia|]. split; [reflexivity|]. split; [reflexivity|].
  split; [lia|]. split; [lia|].
  apply (match_of_cooperators 0%nat 1%nat (-10) 10 (fresh_world [NICEUNTIL; RANSTRAT]));
    [lia|reflexivity|reflexivity|lia|lia].
Defined.

(** ** Matches of a GREEDY prisoner *)

Lemma scores_against_defector t1 t2 :
  length t1 = length t2 -> Forall (eq false) t2 ->
  scores t1 t2 = (- Z.of_nat (cooperations t1), 3 * Z.of_nat (cooperations t1)).
Proof.
  revert t2. induction t1 as [|a t1 IH]; intros [|b t2] Hl Hf; try discriminate.
  - reflexivity.
  - apply Forall_cons in Hf as [<- Hf]. cbn [scores].
    rewrite (IH t2) by (cbn in Hl; lia || exact Hf). cbn [fst snd].
    unfold cooperations. destruct a; cbn [count_occ];
      repeat match goal with |- context [Bool.bool_dec ?x ?y] =>
               destruct (Bool.bool_dec x y); try congruence end;
      unfold payoff, rattee, ratter, both_rat; cbn [andb fst snd]; f_equal; lia.
Qed.

Lemma scores_of_defector t1 t2 :
  length t1 = length t2 -> Forall (eq false) t1 ->
  scores t1 t2 = (3 * Z.of_nat (cooperations t2), - Z.of_nat (cooperations t2)).
Proof.
  revert t2. induction t1 as [|a t1 IH]; intros [|b t2] Hl Hf; try discriminate.
  - reflexivity.
  - apply Forall_cons in Hf as [<- Hf]. cbn [scores].
    rewrite (IH t2) by (cbn in Hl; lia || exact Hf). cbn [fst snd].
    unfold cooperations. destruct b; cbn [count_occ];
      repeat match goal with |- context [Bool.bool_dec ?x ?y] =>
               destruct (Bool.bool_dec x y); try congruence end;
      unfold payoff, rattee, ratter, both_rat; cbn [andb fst snd]; f_equal; lia.
Qed.

(** A GREEDY prisoner's history holds defections only, turn after turn. *)
Lemma defector_rounds p1 p2 p n : forall w w',
  p1 <> p2 -> p = p1 \/ p = p2 ->
  strategy (heap w p) = GREEDY ->
  Forall (eq false) (turns (heap w p)) ->
  play_rounds p1 p2 n w = Returns w' ->
  Forall (eq false) (turns (heap w' p)).
Proof.
  induction n as [|n IH]; intros w w' Hne Hp Hs Hf H.
  - injection H as <-. exact Hf.
  - cbn [play_rounds] in H.
    destruct (dilemma_decides p1 p2 None w) as (c1 & g1 & c2 & g2 & H1 & H2 & Hd).
    rewrite Hd in H.
    pose proof (turn_heap_plays p1 p2 c1 c2 (heap w)) as Hpl.
    destruct (turn_heap_fields p1 p2 c1 c2 (heap w) Hne) as (F1 & F2 & _).
    apply (IH (mkWorld (turn_heap p1 p2 c1 c2 (heap w)) g2) w' Hne Hp); [| |exact H];
      cbn [heap].
    + rewrite (proj1 (Hpl p)). exact Hs.
    + destruct Hp as [-> | ->].
      * rewrite Hs, decide_GREEDY in H1. injection H1 as <- _.
        rewrite F1. apply Forall_app. split; [exact Hf|]. repeat constructor.
      * rewrite Hs, decide_GREEDY in H2. injection H2 as <- _.
        rewrite F2. apply Forall_app. split; [exact Hf|]. repeat constructor.
Qed.

Lemma defector_match p1 p2 p elim_num round_max w :
  p1 <> p2 -> p = p1 \/ p = p2 ->
  strategy (heap w p) = GREEDY ->
  exists w_n,
    match_ p1 p2 elim_num round_max w = Returns (finish p1 p2 w_n)
    /\ tallied p1 p2 (heap w_n)
    /\ Forall (eq false) (turns (heap w_n p)).
Proof.
  intros Hne Hp Hs.
  destruct (match_rounds p1 p2 elim_num round_max w Hne)
    as (n & w_n & Hm & Hplay & Ht & _).
  exists w_n. split; [exact Hm|]. split; [exact Ht|].
  apply (defector_rounds p1 p2 p n (reset_world p1 p2 w) w_n Hne Hp); [| |exact Hplay].
  - cbn [reset_world heap]. rewrite (proj1 (reset_heap_plays p1 p2 (heap w) p)). exact Hs.
  - cbn [reset_world heap].
    destruct Hp as [-> | ->];
      [rewrite reset_heap_turns_1|rewrite reset_heap_turns_2]; constructor.
Qed.

(** X10. A GREEDY prisoner passed as second prisoner wins every match
    against a distinct prisoner, whatever the opponent's strategy, the
    threshold and the round limit: it only ever defects, earns 3 points for
    each cooperation of the opponent, who loses 1 point for each. *)
Theorem greedy_second_always_wins p1 p2 elim_num round_max w :
  p1 <> p2 ->
  strategy (heap w p2) = GREEDY ->
  exists w',
    match_ p1 p2 elim_num round_max w = Returns ((p2, p1), w')
    /\ Forall (eq false) (turns (heap w' p2))
    /\ final_score (heap w' p2) = 3 * Z.of_nat (cooperations (turns (heap w' p1)))
    /\ final_score (heap w' p1) = - Z.of_nat (cooperations (turns (heap w' p1)))
    /\ elim (heap w' p1) = true.
Proof.
  intros Hne Hs.
  destruct (defector_match p1 p2 p2 elim_num round_max w Hne (or_intror eq_refl) Hs)
    as (w_n & Hm & (Tl & T1 & T2) & Hf).
  rewrite (scores_against_defector _ _ Tl Hf) in T1, T2. cbn [fst snd] in T1, T2.
  unfold finish in Hm.
  destruct (final_score (heap w_n p1) <=? final_score (heap w_n p2)) eqn:E;
    [|apply Z.leb_gt in E; lia].
  eexists. split; [exact Hm|]. cbn [heap].
  rewrite !eliminated_turns, !eliminated_score, update_same.
  repeat split; assumption.
Qed.

Lemma greedy_second_always_wins_witness :
  0%nat <> 1%nat
  /\ strategy (heap (fresh_world [RANDOM; GREEDY]) 1%nat) = GREEDY
  /\ exists w',
       match_ 0%nat 1%nat (-5) 30 (fresh_world [RANDOM; GREEDY])
       = Returns ((1%nat, 0%nat), w')
       /\ Forall (eq false) (turns (heap w' 1%nat))
       /\ final_score (heap w' 1%nat)
          = 3 * Z.of_nat (cooperations (turns (heap w' 0%nat)))
       /\ final_score (heap w' 0%nat)
          = - Z.of_nat (cooperations (turns (heap w' 0%nat)))
       /\ elim (heap w' 0%nat) = true.
Proof.
  split; [lia|]. split; [reflexivity|].
  apply (greedy_second_always_wins 0%nat 1%nat (-5) 30 (fresh_world [RANDOM; GREEDY]));
    [lia|reflexivity].
Defined.

(** X11. A GREEDY prisoner passed as first prisoner, against a distinct
    prisoner, earns 3 points for each cooperation of the opponent, who loses
    1 point for each; it wins exactly when the opponent has cooperated at
    least once, and is eliminated by the 0-0 tie otherwise. *)
Theorem greedy_first_wins_on_a_cooperation p1 p2 elim_num round_max w :
  p1 <> p2 ->
  strategy (heap w p1) = GREEDY ->
  exists r w',
    match_ p1 p2 elim_num round_max w = Returns (r, w')
    /\ Forall (eq false) (turns (heap w' p1))
    /\ final_score (heap w' p1) = 3 * Z.of_nat (cooperations (turns (heap w' p2)))
    /\ final_score (heap w' p2) = - Z.of_nat (cooperations (turns (heap w' p2)))
    /\ (cooperations (turns (heap w' p2)) = 0%nat -> r = (p2, p1))
    /\ ((0 < cooperations (turns (heap w' p2)))%nat -> r = (p1, p2)).
Proof.
  intros Hne Hs.
  destruct (defector_match p1 p2 p1 elim_num round_max w Hne (or_introl eq_refl) Hs)
    as (w_n & Hm & (Tl & T1 & T2) & Hf).
  rewrite (scores_of_defector _ _ Tl Hf) in T1, T2. cbn [fst snd] in T1, T2.
  exists (finish p1 p2 w_n).1, (finish p1 p2 w_n).2.
  split; [rewrite Hm; destruct (finish p1 p2 w_n); reflexivity|].
  destruct (finish_fields p1 p2 w_n p1) as (F1 & G1).
  destruct (finish_fields p1 p2 w_n p2) as (F2 & G2).
  destruct (finish_pair p1 p2 w_n) as (P1 & P2).
  rewrite F1, F2, G1, G2.
  split; [exact Hf|]. split; [exact T1|]. split; [exact T2|].
  split; intros Hc; [apply P1|apply P2]; lia.
Qed.

Lemma greedy_first_wins_on_a_cooperation_witness :
  0%nat <> 1%nat
  /\ strategy (heap (fresh_world [GREEDY; TITFORTAT]) 0%nat) = GREEDY
  /\ exists r w',
       match_ 0%nat 1%nat (-5) 30 (fresh_world [GREEDY; TITFORTAT]) = Returns (r, w')
       /\ Forall (eq false) (turns (heap w' 0%nat))
       /\ final_score (heap w' 0%nat)
          = 3 * Z.of_nat (cooperations (turns (heap w' 1%nat)))
       /\ final_score (heap w' 1%nat)
          = - Z.of_nat (cooperations (turns (heap w' 1%nat)))
       /\ (cooperations (turns (heap w' 1%nat)) = 0%nat -> r = (1%nat, 0%nat))
       /\ ((0 < cooperations (turns (heap w' 1%nat)))%nat -> r = (0%nat, 1%nat)).
Proof.
  split; [lia|]. split; [reflexivity|].
  apply (greedy_first_wins_on_a_cooperation 0%nat 1%nat (-5) 30
           (fresh_world [GREEDY; TITFORTAT])); [lia|reflexivity].
Defined.

(** ** NICE against GREEDY *)

Lemma exploited_rounds p1 p2 n : forall j w w',
  p1 <> p2 ->
  strategy (heap w p1) = NICE ->
  strategy (heap w p2) = GREEDY ->
  exploited p1 p2 j (heap w) ->
  play_rounds p1 p2 n w = Returns w' ->
  exploited p1 p2 (j + n) (heap w').
Proof.
  induction n as [|n IH]; intros j w w' Hne Hs1 Hs2 Hc H.
  - injection H as <-. rewrite Nat.add_0_r. exact Hc.
  - cbn [play_rounds] in H.
    destruct (dilemma_decides p1 p2 None w) as (c1 & g1 & c2 & g2 & H1 & H2 & Hd).
    rewrite Hd in H. destruct Hc as (T1 & T2 & S1 & S2).
    rewrite Hs1, decide_NICE in H1. rewrite Hs2, decide_GREEDY in H2.
    injection H1 as <- _. injection H2 as <- _.
    replace (j + S n)%nat with (S j + n)%nat by lia.
    pose proof (turn_heap_plays p1 p2 true false (heap w)) as Hp.
    destruct (turn_heap_fields p1 p2 true false (heap w) Hne) as (F1 & F2 & G1 & G2).
    apply (IH (S j) (mkWorld (turn_heap p1 p2 true false (heap w)) g2) w' Hne);
      [| | |exact H]; cbn [heap].
    + rewrite (proj1 (Hp p1)). exact Hs1.
    + rewrite (proj1 (Hp p2)). exact Hs2.
    + unfold exploited. rewrite F1, F2, G1, G2, T1, T2, S1, S2, !replicate_S_end.
      change (payoff true false) with (-1, 3). cbn [fst snd].
      repeat split; lia.
Qed.

(** X12. With a negative threshold, a match of a NICE prisoner against a
    distinct GREEDY one costs the NICE prisoner one point a round and stops
    as soon as its score reaches the threshold, or at the round limit if that
    comes first: it lasts the smaller of the limit and the opposite of the
    threshold, and the GREEDY prisoner wins with 3 points a round. *)
Theorem nice_against_greedy p1 p2 elim_num round_max w :
  p1 <> p2 ->
  strategy (heap w p1) = NICE ->
  strategy (heap w p2) = GREEDY ->
  elim_num < 0 ->
  0 <= round_max ->
  exists w',
    match_ p1 p2 elim_num round_max w = Returns ((p2, p1), w')
    /\ turns (heap w' p1) = replicate (Z.to_nat (Z.min round_max (- elim_num))) true
    /\ turns (heap w' p2) = replicate (Z.to_nat (Z.min round_max (- elim_num))) false
    /\ final_score (heap w' p1) = - Z.min round_max (- elim_num)
    /\ final_score (heap w' p2) = 3 * Z.min round_max (- elim_num).
Proof.
  intros Hne Hs1 Hs2 He Hm.
  destruct (match_spec p1 p2 elim_num round_max w)
    as (n & w_n & Hplay & Hbefore & Hafter & Hmatch).
  pose proof (reset_heap_plays p1 p2 (heap w)) as Hp.
  assert (Hr1 : strategy (heap (reset_world p1 p2 w) p1) = NICE).
  { cbn [reset_world heap]. rewrite (proj1 (Hp p1)). exact Hs1. }
  assert (Hr2 : strategy (heap (reset_world p1 p2 w) p2) = GREEDY).
  { cbn [reset_world heap]. rewrite (proj1 (Hp p2)). exact Hs2. }
  assert (H0 : exploited p1 p2 0 (heap (reset_world p1 p2 w))).
  { unfold exploited. cbn [reset_world heap].
    rewrite reset_heap_turns_1, reset_heap_turns_2, reset_heap_score_1, reset_heap_score_2.
    repeat split. }
  pose proof (exploited_rounds p1 p2 n 0 _ _ Hne Hr1 Hr2 H0 Hplay) as Hn.
  cbn [Nat.add] in Hn. destruct Hn as (T1 & T2 & S1 & S2).
  assert (Hrounds : Z.of_nat n = Z.min round_max (- elim_num)).
  { assert (Hup : Z.of_nat n <= Z.min round_max (- elim_num)).
    { destruct n as [|k]; [lia|].
      destruct (play_rounds_returns p1 p2 k (reset_world p1 p2 w)) as (w_k & Hk & _).
      pose proof (exploited_rounds p1 p2 k 0 _ _ Hne Hr1 Hr2 H0 Hk) as (_ & _ & K1 & _).
      cbn [Nat.add] in K1.
      specialize (Hbefore k w_k ltac:(lia) Hk). apply match_cond_iff in Hbefore. lia. }
    destruct (match_cond p1 p2 elim_num round_max (1 + Z.of_nat n) w_n) eqn:E;
      [discriminate|].
    assert (Hnot : ~ (Z.of_nat n < Z.min round_max (- elim_num))).
    { intros Hlt.
      assert (Hc : match_cond p1 p2 elim_num round_max (1 + Z.of_nat n) w_n = true).
      { apply match_cond_iff. rewrite S1, S2. lia. }
      congruence. }
    lia. }
  unfold finish in Hmatch. rewrite S1, S2 in Hmatch.
  destruct (- Z.of_nat n <=? 3 * Z.of_nat n) eqn:E; [|apply Z.leb_gt in E; lia].
  eexists. split; [exact Hmatch|]. cbn [heap].
  rewrite !eliminated_turns, !eliminated_score, T1, T2, S1, S2, <- Hrounds, Nat2Z.id.
  repeat split.
Qed.

Lemma nice_against_greedy_witness :
  0%nat <> 1%nat
  /\ strategy (heap (fresh_world [NICE; GREEDY]) 0%nat) = NICE
  /\ strategy (heap (fresh_world [NICE; GREEDY]) 1%nat) = GREEDY
  /\ -1 < 0
  /\ 0 <= 100
  /\ exists w',
       match_ 0%nat 1%nat (-1) 100 (fresh_world [NICE; GREEDY]) = Returns ((1%nat, 0%nat), w')
       /\ turns (heap w' 0%nat) = replicate (Z.to_nat (Z.min 100 (- -1))) true
       /\ turns (heap w' 1%nat) = replicate (Z.to_nat (Z.min 100 (- -1))) false
       /\ final_score (heap w' 0%nat) = - Z.min 100 (- -1)
       /\ final_score (heap w' 1%nat) = 3 * Z.min 100 (- -1).
Proof.
  split; [lia|]. split; [reflexivity|]. split; [reflexivity|].
  split; [lia|]. split; [lia|].
  apply (nice_against_greedy 0%nat 1%nat (-1) 100 (fresh_world [NICE; GREEDY]));
    [lia|reflexivity|reflexivity|lia|lia].
Defined.

(** ** Flags *)

(** X13. Nothing ever clears an elimination flag: a prisoner flagged before
    a match or before a bracket is still flagged after it, whether or not it
    takes part and whatever it wins.  So the winner of a bracket run on
    prisoners left flagged by an earlier one comes out flagged. *)
Theorem elimination_is_never_undone a b P elim_num round_max w l :
  elim (heap w l) = true ->
  match match_ a b elim_num round_max w with
  | Returns (_, w') => elim (heap w' l) = true
  | Raises _ => False
  end
  /\ match set_up_matches P elim_num round_max w with
     | Returns (_, w') => elim (heap w' l) = true
     | Raises _ => P = []
     end.
Proof.
  intros Hl. split.
  - destruct (match_effect a b elim_num round_max w)
      as (winner & loser & w' & Hm & _ & He1 & He2 & _).
    rewrite Hm. destruct (Nat.eq_dec l loser) as [->|Hne]; [exact He1|].
    rewrite He2 by exact Hne. exact Hl.
  - destruct P as [|x P]; [rewrite set_up_matches_empty; reflexivity|].
    destruct (set_up_matches_spec elim_num round_max (x :: P) w)
      as (rounds & winner & w' & Hr & _ & _ & He1 & He2 & _); [discriminate|].
    rewrite Hr. destruct (decide (l ∈ concat rounds)) as [Hin|Hout].
    + apply He1. exact Hin.
    + rewrite He2 by exact Hout. exact Hl.
Qed.

Lemma elimination_is_never_undone_witness :
  elim (heap (mkWorld (fun _ => eliminated (new_prisoner NICE)) (mkRng (fun _ => 0%nat) 0))
          1%nat) = true
  /\ match match_ 0%nat 1%nat (-10) 10
             (mkWorld (fun _ => eliminated (new_prisoner NICE)) (mkRng (fun _ => 0%nat) 0))
     with
     | Returns (_, w') => elim (heap w' 1%nat) = true
     | Raises _ => False
     end
  /\ match set_up_matches [0%nat; 1%nat; 2%nat] (-10) 10
             (mkWorld (fun _ => eliminated (new_prisoner NICE)) (mkRng (fun _ => 0%nat) 0))
     with
     | Returns (_, w') => elim (heap w' 1%nat) = true
     | Raises _ => [0%nat; 1%nat; 2%nat] = []
     end.
Proof.
  split; [reflexivity|].
  apply (elimination_is_never_undone 0%nat 1%nat [0%nat; 1%nat; 2%nat] (-10) 10
           (mkWorld (fun _ => eliminated (new_prisoner NICE)) (mkRng (fun _ => 0%nat) 0))
           1%nat).
  reflexivity.
Defined.

(** ** The size of a bracket *)

(** X14. The [while] loop of [set_up_matches] over [N >= 1] prisoners makes
    exactly [ceil (log2 N)] passes, [rounds], and no others, and plays
    [N - 1] matches in all, one per prisoner eliminated.  A pass whose
    shuffled list holds [n] prisoners plays [n / 2] matches, at least one;
    these [n] prisoners are the one who sits out, the winners and the losers
    of its matches.  The first pass is played by the prisoners given, every
    later one by the prisoner who sat out the pass before it and the winners
    of its matches. *)
Theorem bracket_size P elim_num round_max w :
  (1 <= length P)%nat ->
  exists rounds winner w',
    set_up_matches P elim_num round_max w
    = Returns (mkSetUp (eliminated_in rounds ++ [winner]) [winner], w')
    /\ bracket_trace elim_num round_max P w rounds [winner] w'
    /\ (forall rounds2 last2 w2,
          bracket_trace elim_num round_max P w rounds2 last2 w2 ->
          rounds2 = rounds /\ last2 = [winner] /\ w2 = w')
    /\ length rounds = Nat.log2_up (length P)
    /\ length (played rounds) = (length P - 1)%nat
    /\ Forall (fun rd => length (results rd) = (length (lineup rd) / 2)%nat
                         /\ results rd <> []) rounds
    /\ Forall (fun rd => middle (lineup rd) ++ map won (results rd) ++ map lost (results rd)
                         ≡ₚ lineup rd) rounds
    /\ (forall rd, rounds !! 0%nat = Some rd -> lineup rd ≡ₚ P)
    /\ (forall k rd rd',
          rounds !! k = Some rd -> rounds !! S k = Some rd' ->
          lineup rd' ≡ₚ middle (lineup rd) ++ map won (results rd)).
Proof.
  intros HP.
  destruct (set_up_matches_trace elim_num round_max P w)
    as (rounds & winner & w' & Htr & Hr).
  { intros ->. cbn in HP. lia. }
  destruct (bracket_trace_size _ _ _ _ _ _ _ Htr) as (_ & Hk & Hpl & Hf).
  destruct (bracket_trace_lineups _ _ _ _ _ _ _ Htr) as (Hhead & Hnext & Hall).
  exists rounds, winner, w'. split; [exact Hr|]. split; [exact Htr|].
  split; [intros rounds2 last2 w2 H2; exact (bracket_trace_unique _ _ _ _ _ _ _ _ _ _ Htr H2)|].
  split; [exact Hk|]. split; [exact Hpl|]. split; [exact Hf|].
  split; [exact Hall|]. split; [exact Hhead|exact Hnext].
Qed.

Lemma bracket_size_witness :
  (1 <= length [0%nat; 1%nat; 2%nat; 3%nat; 4%nat])%nat
  /\ exists rounds winner w',
       set_up_matches [0%nat; 1%nat; 2%nat; 3%nat; 4%nat] (-10) 10
         (fresh_world [NICE; GREEDY; TITFORTAT; RANDOM; AVESTRAT])
       = Returns (mkSetUp (eliminated_in rounds ++ [winner]) [winner], w')
       /\ bracket_trace (-10) 10 [0%nat; 1%nat; 2%nat; 3%nat; 4%nat]
            (fresh_world [NICE; GREEDY; TITFORTAT; RANDOM; AVESTRAT]) rounds [winner] w'
       /\ (forall rounds2 last2 w2,
             bracket_trace (-10) 10 [0%nat; 1%nat; 2%nat; 3%nat; 4%nat]
               (fresh_world [NICE; GREEDY; TITFORTAT; RANDOM; AVESTRAT]) rounds2 last2 w2 ->
             rounds2 = rounds /\ last2 = [winner] /\ w2 = w')
       /\ length rounds = Nat.log2_up (length [0%nat; 1%nat; 2%nat; 3%nat; 4%nat])
       /\ length (played rounds) = (length [0%nat; 1%nat; 2%nat; 3%nat; 4%nat] - 1)%nat
       /\ Forall (fun rd => length (results rd) = (length (lineup rd) / 2)%nat
                            /\ results rd <> []) rounds
       /\ Forall (fun rd => middle (lineup rd) ++ map won (results rd)
                              ++ map lost (results rd) ≡ₚ lineup rd) rounds
       /\ (forall rd, rounds !! 0%nat = Some rd ->
             lineup rd ≡ₚ [0%nat; 1%nat; 2%nat; 3%nat; 4%nat])
       /\ (forall k rd rd',
             rounds !! k = Some rd -> rounds !! S k = Some rd' ->
             lineup rd' ≡ₚ middle (lineup rd) ++ map won (results rd)).
Proof.
  split; [cbn; lia|].
  apply (bracket_size [0%nat; 1%nat; 2%nat; 3%nat; 4%nat] (-10) 10
           (fresh_world [NICE; GREEDY; TITFORTAT; RANDOM; AVESTRAT])).
  cbn. lia.
Defined.

(** ** What a bracket leaves alone *)

Lemma lift_Returns {A} (o : outcome A) w a w' :
  lift o w = Returns (a, w') -> o = Returns a /\ w' = w.
Proof.
  unfold lift. destruct o; [|discriminate].
  intros H. injection H as <- <-. split; reflexivity.
Qed.

Lemma py_index_elem {A} (l : list A) i a : py_index l i = Returns a -> a ∈ l.
Proof.
  unfold py_index. cbv zeta.
  destruct ((_ <? 0) || (len l <=? _)); [discriminate|].
  destruct (l !! _) as [b|] eqn:E; [|discriminate].
  intros H. injection H as <-. apply list_elem_of_lookup. eauto.
Qed.

Lemma match_frame a b elim_num round_max w r w' :
  match_ a b elim_num round_max w = Returns (r, w') ->
  forall l, l <> a -> l <> b -> heap w' l = heap w l.
Proof.
  intros H.
  destruct (match_effect a b elim_num round_max w)
    as (winner & loser & w1 & Hm & _ & _ & _ & _ & _ & Hfr).
  rewrite Hm in H. injection H as _ <-. exact Hfr.
Qed.

Lemma matches_loop_frame P elim_num round_max indices : forall cw fp w r w',
  matches_loop P elim_num round_max indices cw fp w = Returns (r, w') ->
  forall l, l ∉ P -> heap w' l = heap w l.
Proof.
  induction indices as [|i rest IH]; intros cw fp w r w' H l Hl.
  - apply ret_Returns in H. injection H as _ <-. reflexivity.
  - cbn [matches_loop] in H.
    apply bind_Returns in H as (a & w1 & Ha & H). apply lift_Returns in Ha as (Ha & ->).
    apply bind_Returns in H as (b & w2 & Hb & H). apply lift_Returns in Hb as (Hb & ->).
    apply bind_Returns in H as ([winner loser] & w3 & Hm & H).
    rewrite (IH _ _ _ _ _ H l Hl).
    apply (match_frame _ _ _ _ _ _ _ Hm).
    + intros ->. apply Hl. exact (py_index_elem _ _ _ Ha).
    + intros ->. apply Hl. exact (py_index_elem _ _ _ Hb).
Qed.

Lemma bracket_round_frame elim_num round_max st w st' w' :
  bracket_round elim_num round_max st w = Returns (st', w') ->
  (forall l, l ∉ prisoners st -> heap w' l = heap w l)
  /\ (forall l, l ∈ prisoners st' -> l ∈ prisoners st).
Proof.
  intros H. split.
  - intros l Hl. unfold bracket_round in H.
    apply bind_Returns in H as (P & w1 & HP & H).
    apply bind_Returns in H as (cw & w2 & Hcw & H).
    apply bind_Returns in H as ([cw' fp'] & w3 & Hloop & H).
    apply ret_Returns in H. injection H as _ <-.
    assert (H1 : heap w1 = heap w /\ P ≡ₚ prisoners st).
    { unfold random_shuffle in HP.
      pose proof (shuffle_Permutation (prisoners st) (gen w)) as Hperm.
      destruct (shuffle (prisoners st) (gen w)) as [x g].
      injection HP as <- <-. split; [reflexivity|exact Hperm]. }
    destruct H1 as (Hh1 & Hperm).
    assert (H2 : w2 = w1).
    { destruct (len P mod 2 =? 1).
      - apply bind_Returns in Hcw as (extra & w4 & Hx & Hcw).
        apply lift_Returns in Hx as (_ & ->).
        apply ret_Returns in Hcw. injection Hcw as _ <-. reflexivity.
      - apply ret_Returns in Hcw. injection Hcw as _ <-. reflexivity. }
    subst w2.
    rewrite (matches_loop_frame _ _ _ _ _ _ _ _ _ Hloop l), Hh1; [reflexivity|].
    rewrite Hperm. exact Hl.
  - intros l Hl.
    destruct (bracket_round_spec elim_num round_max st w)
      as (survivors & losers & w1 & Hr & Hperm & _).
    rewrite Hr in H. injection H as <- _. cbn [prisoners] in Hl.
    rewrite <- Hperm. apply elem_of_app. left. exact Hl.
Qed.

Lemma bracket_measure_decreases elim_num round_max st w st' w' :
  (1 <? len (current_winners st)) = true ->
  bracket_round elim_num round_max st w = Returns (st', w') ->
  (bracket_measure st' < bracket_measure st)%nat.
Proof.
  intros Hc Hr. apply bracket_round_length in Hr as [HP Hl].
  unfold bracket_measure. rewrite Hc, HP.
  destruct (1 <? len (current_winners st')) eqn:E; [|lia].
  apply Z.ltb_lt in E. unfold len in E.
  pose proof (Nat.div_mod_eq (length (prisoners st)) 2) as Hdm.
  pose proof (Nat.mod_upper_bound (length (prisoners st)) 2 ltac:(lia)) as Hub.
  lia.
Qed.

Lemma matches_while_frame elim_num round_max st w st' w' :
  matches_while elim_num round_max st w = Returns (st', w') ->
  forall l, l ∉ prisoners st -> heap w' l = heap w l.
Proof.
  remember (bracket_measure st) as n eqn:Hn. revert st w Hn.
  induction (lt_wf n) as [n _ IH]. intros st w Hn H l Hl.
  rewrite matches_while_step in H.
  destruct (1 <? len (current_winners st)) eqn:Hc.
  - destruct (bracket_round elim_num round_max st w) as [[st1 w1]|e] eqn:Hr;
      [|discriminate].
    destruct (bracket_round_frame _ _ _ _ _ _ Hr) as (Hfr & Hsub).
    pose proof (bracket_measure_decreases _ _ _ _ _ _ Hc Hr) as Hlt.
    rewrite <- Hn in Hlt.
    rewrite (IH _ Hlt st1 w1 eq_refl H l); [apply Hfr; exact Hl|].
    intros Hin. apply Hl, Hsub. exact Hin.
  - injection H as _ <-. reflexivity.
Qed.

Lemma set_up_matches_frame P elim_num round_max w r w' :
  set_up_matches P elim_num round_max w = Returns (r, w') ->
  forall l, l ∉ P -> heap w' l = heap w l.
Proof.
  intros Hr l Hl. unfold set_up_matches in Hr. cbn [app] in Hr.
  apply bind_Returns in Hr as ([P1 cw1 fp1] & w1 & Hw & Hr).
  apply bind_Returns in Hr as (x1 & w2 & Hx & Hr). apply lift_Returns in Hx as (_ & ->).
  apply ret_Returns in Hr. injection Hr as _ ->.
  exact (matches_while_frame _ _ _ _ _ _ Hw l Hl).
Qed.

(** X15. A match changes nothing of the prisoners that do not take part in
    it, and a bracket nothing of the prisoners outside its population: their
    scores, histories and flags are as before.  Neither changes the strategy
    of any prisoner. *)
Theorem matches_leave_the_others_alone a b P elim_num round_max w :
  match match_ a b elim_num round_max w with
  | Returns (_, w') =>
      forall l,
        (l <> a -> l <> b -> heap w' l = heap w l)
        /\ strategy (heap w' l) = strategy (heap w l)
  | Raises _ => False
  end
  /\ match set_up_matches P elim_num round_max w with
     | Returns (_, w') =>
         forall l,
           (l ∉ P -> heap w' l = heap w l)
           /\ strategy (heap w' l) = strategy (heap w l)
     | Raises _ => P = []
     end.
Proof.
  split.
  - destruct (match_effect a b elim_num round_max w)
      as (winner & loser & w' & Hm & _ & _ & _ & _ & Hs & Hfr).
    rewrite Hm. intros l. split; [apply Hfr|apply Hs].
  - destruct P as [|x P]; [rewrite set_up_matches_empty; reflexivity|].
    destruct (set_up_matches_spec elim_num round_max (x :: P) w)
      as (rounds & winner & w' & Hr & _ & _ & _ & _ & _ & Hs); [discriminate|].
    rewrite Hr. intros l. split; [|apply Hs].
    apply (set_up_matches_frame _ _ _ _ _ _ Hr).
Qed.

(** ** Creating prisoners *)

Lemma add_prisoner_step strat number prisoners m :
  add_prisoner strat number prisoners m
  = if number >? 0 then
      add_prisoner strat (number - 1)
        (prisoners ++ [(Prisoner_new strat m).1]) (Prisoner_new strat m).2
    else (prisoners, m).
Proof.
  rewrite add_prisoner_equation_1.
  destruct (inspect (number >? 0)) as [[] Hc].
  - rewrite add_prisoner_clause_1_equation_1.
    symmetry. apply (if_true _ _ _ Hc).
  - rewrite add_prisoner_clause_1_equation_2.
    symmetry. apply (if_false _ _ _ Hc).
Qed.

Lemma add_prisoner_spec strat (n : nat) : forall number prisoners m,
  Z.to_nat number = n ->
  exists m',
    add_prisoner strat number prisoners m = (prisoners ++ seq (next m) n, m')
    /\ next m' = (next m + n)%nat
    /\ gen (world m') = gen (world m)
    /\ (forall l, (next m <= l < next m + n)%nat ->
        heap (world m') l = new_prisoner strat)
    /\ (forall l, ~ (next m <= l < next m + n)%nat ->
        heap (world m') l = heap (world m) l).
Proof.
  induction n as [|n IH]; intros number prisoners m Hn; rewrite add_prisoner_step.
  - destruct (number >? 0) eqn:E; [apply Z.gtb_lt in E; lia|].
    exists m. rewrite app_nil_r, Nat.add_0_r.
    repeat split; try reflexivity. intros l Hl. lia.
  - destruct (number >? 0) eqn:E; [|rewrite Z.gtb_ltb in E; apply Z.ltb_ge in E; lia].
    destruct (IH (number - 1) (prisoners ++ [(Prisoner_new strat m).1])
                (Prisoner_new strat m).2 ltac:(lia))
      as (m' & Ha & Hnext & Hgen & Hnew & Hold).
    cbn [Prisoner_new fst snd next world gen heap] in *.
    exists m'. rewrite Ha, <- app_assoc. cbn [app seq].
    split; [reflexivity|]. split; [lia|]. split; [exact Hgen|]. split.
    + intros l Hl. destruct (Nat.eq_dec l (next m)) as [->|Hne].
      * rewrite Hold by lia. apply update_same.
      * apply Hnew. lia.
    + intros l Hl. rewrite Hold by lia. apply update_other. lia.
Qed.

(** X16. [add_prisoner] appends to the list as many new prisoners as the
    number asks for, none when the number is zero or negative.  The new
    prisoners are distinct, new objects, each with the given strategy, no
    history, score 0, elimination round 0 and no flag; the prisoners that
    existed are unchanged and nothing is drawn. *)
Theorem add_prisoner_appends_new_prisoners strat number prisoners m :
  exists m',
    add_prisoner strat number prisoners m
    = (prisoners ++ seq (next m) (Z.to_nat number), m')
    /\ next m' = (next m + Z.to_nat number)%nat
    /\ gen (world m') = gen (world m)
    /\ (forall l, (next m <= l < next m + Z.to_nat number)%nat ->
        heap (world m') l = mkPrisoner strat [] 0 0 false)
    /\ (forall l, (l < next m)%nat -> heap (world m') l = heap (world m) l)
    /\ (number <= 0 -> add_prisoner strat number prisoners m = (prisoners, m)).
Proof.
  destruct (add_prisoner_spec strat (Z.to_nat number) number prisoners m eq_refl)
    as (m' & Ha & Hnext & Hgen & Hnew & Hold).
  exists m'. do 4 (split; [assumption|]). split.
  - intros l Hl. apply Hold. lia.
  - intros Hle. rewrite add_prisoner_step.
    destruct (number >? 0) eqn:E; [apply Z.gtb_lt in E; lia|reflexivity].
Qed.

(** X17. [random_prisoner] never raises.  It makes one draw and creates one
    new prisoner, whose strategy is the entry of [types] at the draw taken
    modulo 7: one of the seven strategies, never the user's.  The prisoners
    that existed are unchanged. *)
Theorem random_prisoner_is_never_the_user m :
  exists strat m',
    random_prisoner m = Returns (next m, m')
    /\ types !! (tape (gen (world m)) (cursor (gen (world m))) mod 7)%nat = Some strat
    /\ strat <> USER
    /\ heap (world m') (next m) = mkPrisoner strat [] 0 0 false
    /\ next m' = S (next m)
    /\ gen (world m') = advance (gen (world m))
    /\ (forall l, l <> next m -> heap (world m') l = heap (world m) l).
Proof.
  unfold random_prisoner, bind, randint, randbelow.
  change (Z.to_nat (6 - 0 + 1)) with 7%nat.
  set (k := (tape (gen (world m)) (cursor (gen (world m))) mod 7)%nat).
  assert (Hk : (k < 7)%nat) by (apply Nat.mod_upper_bound; lia).
  destruct (py_index_nonneg types (0 + Z.of_nat k)) as (strat & Hs & Hl).
  { unfold len. cbn [types length]. lia. }
  rewrite Z.add_0_l, Nat2Z.id in Hl.
  unfold lift. rewrite Hs. cbn [Prisoner_new next world heap gen].
  exists strat. eexists. split; [reflexivity|]. cbn [next world heap gen].
  split; [exact Hl|]. split; [|split; [apply update_same|split; [reflexivity|split]]].
  - intros ->. apply list_elem_of_lookup_2 in Hl. unfold types in Hl.
    repeat (apply elem_of_cons in Hl as [Hl|Hl]; [discriminate Hl|]).
    apply elem_of_nil in Hl. exact Hl.
  - reflexivity.
  - intros l Hne. apply update_other. exact Hne.
Qed.

(** ** The simulation of [main] *)

Lemma guarded_add strat number prisoners m :
  (if number >? 0 then add_prisoner strat number prisoners m else (prisoners, m))
  = add_prisoner strat number prisoners m.
Proof.
  destruct (number >? 0) eqn:E; [reflexivity|].
  rewrite add_prisoner_step, E. reflexivity.
Qed.

Lemma populated_add strat number a t g h r :
  populated a t g h r ->
  populated a (t + Z.to_nat number) g h (add_prisoner strat number r.1 r.2).
Proof.
  intros (HP & Hnext & Hgen & Hnew & Hold).
  destruct (add_prisoner_spec strat (Z.to_nat number) number r.1 r.2 eq_refl)
    as (m' & Ha & Hnext' & Hgen' & Hnew' & Hold').
  rewrite Ha. unfold populated. cbn [fst snd].
  rewrite HP, Hnext, <- seq_app. split; [reflexivity|].
  split; [lia|]. split; [congruence|]. split.
  - intros l Hl. destruct (Nat.lt_ge_cases l (a + t)) as [Hlt|Hge].
    + rewrite Hold' by lia. apply Hnew. lia.
    + exists strat. apply Hnew'. lia.
  - intros l Hl. rewrite Hold' by lia. apply Hold. exact Hl.
Qed.

(** The population that [main] builds before it calls [set_up_matches]. *)
Lemma main_simulation_population
  num_nice num_greed num_rand num_titfortat num_niceuntil num_ranstrat num_avestrat
  num_rounds elim_num m :
  exists m1,
    populated (next m)
      (Z.to_nat num_nice + Z.to_nat num_greed + Z.to_nat num_rand
       + Z.to_nat num_titfortat + Z.to_nat num_niceuntil + Z.to_nat num_ranstrat
       + Z.to_nat num_avestrat)
      (gen (world m)) (heap (world m))
      (seq (next m)
         (Z.to_nat num_nice + Z.to_nat num_greed + Z.to_nat num_rand
          + Z.to_nat num_titfortat + Z.to_nat num_niceuntil + Z.to_nat num_ranstrat
          + Z.to_nat num_avestrat), m1)
    /\ main_simulation num_nice num_greed num_rand num_titfortat num_niceuntil
         num_ranstrat num_avestrat num_rounds elim_num m
       = match set_up_matches
                 (seq (next m)
                    (Z.to_nat num_nice + Z.to_nat num_greed + Z.to_nat num_rand
                     + Z.to_nat num_titfortat + Z.to_nat num_niceuntil
                     + Z.to_nat num_ranstrat + Z.to_nat num_avestrat))
                 elim_num num_rounds (world m1) with
         | Returns (finished_prisoners, w) =>
             Returns (finished_prisoners, mkMemory w (next m1))
         | Raises e => Raises e
         end.
Proof.
  assert (H0 : populated (next m) 0 (gen (world m)) (heap (world m)) ([], m)).
  { unfold populated. cbn [fst snd seq]. rewrite Nat.add_0_r.
    repeat split. intros l Hl. lia. }
  unfold main_simulation.
  rewrite guarded_add.
  pose proof (populated_add NICE num_nice _ _ _ _ _ H0) as H1. cbn [fst snd] in H1.
  destruct (add_prisoner NICE num_nice [] m) as [P1 m1].
  rewrite guarded_add.
  pose proof (populated_add GREEDY num_greed _ _ _ _ _ H1) as H2. cbn [fst snd] in H2.
  destruct (add_prisoner GREEDY num_greed P1 m1) as [P2 m2].
  rewrite guarded_add.
  pose proof (populated_add RANDOM num_rand _ _ _ _ _ H2) as H3. cbn [fst snd] in H3.
  destruct (add_prisoner RANDOM num_rand P2 m2) as [P3 m3].
  rewrite guarded_add.
  pose proof (populated_add TITFORTAT num_titfortat _ _ _ _ _ H3) as H4.
  cbn [fst snd] in H4.
  destruct (add_prisoner TITFORTAT num_titfortat P3 m3) as [P4 m4].
  rewrite guarded_add.
  pose proof (populated_add NICEUNTIL num_niceuntil _ _ _ _ _ H4) as H5.
  cbn [fst snd] in H5.
  destruct (add_prisoner NICEUNTIL num_niceuntil P4 m4) as [P5 m5].
  rewrite guarded_add.
  pose proof (populated_add RANSTRAT num_ranstrat _ _ _ _ _ H5) as H6.
  cbn [fst snd] in H6.
  destruct (add_prisoner RANSTRAT num_ranstrat P5 m5) as [P6 m6].
  rewrite guarded_add.
  pose proof (populated_add AVESTRAT num_avestrat _ _ _ _ _ H6) as H7.
  cbn [fst snd] in H7.
  destruct (add_prisoner AVESTRAT num_avestrat P6 m6) as [P7 m7].
  cbn [Nat.add] in H7.
  exists m7. pose proof H7 as (HP & _). cbn [fst] in HP. subst P7.
  split; [exact H7|reflexivity].
Qed.

(** X18. When every number typed is zero or negative, [main] creates no
    prisoner and its call of [set_up_matches] raises [IndexError]: nothing
    checks that there is a population. *)
Theorem main_without_prisoners_raises
  num_nice num_greed num_rand num_titfortat num_niceuntil num_ranstrat num_avestrat
  num_rounds elim_num m :
  num_nice <= 0 -> num_greed <= 0 -> num_rand <= 0 -> num_titfortat <= 0 ->
  num_niceuntil <= 0 -> num_ranstrat <= 0 -> num_avestrat <= 0 ->
  main_simulation num_nice num_greed num_rand num_titfortat num_niceuntil
    num_ranstrat num_avestrat num_rounds elim_num m
  = Raises IndexError.
Proof.
  intros H1 H2 H3 H4 H5 H6 H7.
  destruct (main_simulation_population num_nice num_greed num_rand num_titfortat
              num_niceuntil num_ranstrat num_avestrat num_rounds elim_num m)
    as (m1 & _ & Hmain).
  rewrite Hmain.
  replace (Z.to_nat num_nice + Z.to_nat num_greed + Z.to_nat num_rand
           + Z.to_nat num_titfortat + Z.to_nat num_niceuntil + Z.to_nat num_ranstrat
           + Z.to_nat num_avestrat)%nat with 0%nat by lia.
  cbn [seq]. rewrite set_up_matches_empty. reflexivity.
Qed.

Lemma main_without_prisoners_raises_witness :
  0 <= 0 /\ -2 <= 0 /\ 0 <= 0 /\ 0 <= 0 /\ 0 <= 0 /\ 0 <= 0 /\ 0 <= 0
  /\ main_simulation 0 (-2) 0 0 0 0 0 10 (-10) (mkMemory (fresh_world []) 0%nat)
     = Raises IndexError.
Proof.
  do 7 (split; [lia|]).
  apply (main_without_prisoners_raises 0 (-2) 0 0 0 0 0 10 (-10)
           (mkMemory (fresh_world []) 0%nat)); lia.
Defined.

(** X19. When the numbers typed ask for at least one prisoner, the
    simulation of [main] returns: its list holds every prisoner created,
    once; all but the last are flagged as eliminated and the last, the
    winner, is not; every one of them still has the elimination round 0 of
    its creation; the prisoners that existed before are unchanged. *)
Theorem main_simulation_result
  num_nice num_greed num_rand num_titfortat num_niceuntil num_ranstrat num_avestrat
  num_rounds elim_num m :
  (1 <= Z.to_nat num_nice + Z.to_nat num_greed + Z.to_nat num_rand
        + Z.to_nat num_titfortat + Z.to_nat num_niceuntil + Z.to_nat num_ranstrat
        + Z.to_nat num_avestrat)%nat ->
  exists losers winner m',
    main_simulation num_nice num_greed num_rand num_titfortat num_niceuntil
      num_ranstrat num_avestrat num_rounds elim_num m
    = Returns (mkSetUp (losers ++ [winner]) [winner], m')
    /\ losers ++ [winner]
       ≡ₚ seq (next m)
            (Z.to_nat num_nice + Z.to_nat num_greed + Z.to_nat num_rand
             + Z.to_nat num_titfortat + Z.to_nat num_niceuntil + Z.to_nat num_ranstrat
             + Z.to_nat num_avestrat)
    /\ NoDup (losers ++ [winner])
    /\ (forall l, l ∈ losers -> elim (heap (world m') l) = true)
    /\ elim (heap (world m') winner) = false
    /\ (forall l, l ∈ losers ++ [winner] -> elim_round (heap (world m') l) = 0)
    /\ (forall l, (l < next m)%nat -> heap (world m') l = heap (world m) l).
Proof.
  intros Htotal.
  destruct (main_simulation_population num_nice num_greed num_rand num_titfortat
              num_niceuntil num_ranstrat num_avestrat num_rounds elim_num m)
    as (m1 & (_ & _ & _ & Hnew & Hold) & Hmain).
  cbn [fst snd] in Hnew, Hold.
  set (total := (Z.to_nat num_nice + Z.to_nat num_greed + Z.to_nat num_rand
                 + Z.to_nat num_titfortat + Z.to_nat num_niceuntil
                 + Z.to_nat num_ranstrat + Z.to_nat num_avestrat)%nat) in *.
  destruct (set_up_matches_spec elim_num num_rounds (seq (next m) total) (world m1))
    as (rounds & winner & w' & Hr & _ & Hperm & He1 & He2 & He3 & _).
  { destruct total; [lia|discriminate]. }
  rewrite Hr in Hmain.
  assert (Hnd : NoDup (concat rounds ++ [winner])).
  { rewrite Hperm. apply NoDup_ListNoDup, List.seq_NoDup. }
  assert (Hrange : forall l, l ∈ concat rounds ++ [winner] ->
                             (next m <= l < next m + total)%nat).
  { intros l Hl. rewrite Hperm in Hl. apply list_elem_of_In, in_seq in Hl. exact Hl. }
  exists (concat rounds), winner, (mkMemory w' (next m1)). cbn [world].
  split; [exact Hmain|]. split; [exact Hperm|]. split; [exact Hnd|].
  split; [exact He1|]. split; [|split].
  - rewrite He2.
    + destruct (Hnew winner) as (strat & ->); [|reflexivity].
      apply Hrange, elem_of_app. right. apply list_elem_of_singleton. reflexivity.
    + apply NoDup_app in Hnd as (_ & Hdisj & _). intros Hin.
      apply (Hdisj winner Hin). apply list_elem_of_singleton. reflexivity.
  - intros l Hl. rewrite He3.
    destruct (Hnew l (Hrange l Hl)) as (strat & ->). reflexivity.
  - intros l Hl. rewrite <- (Hold l Hl).
    apply (set_up_matches_frame _ _ _ _ _ _ Hr).
    intros Hin. apply list_elem_of_In, in_seq in Hin. lia.
Qed.

Lemma main_simulation_result_witness :
  (1 <= Z.to_nat 2 + Z.to_nat 1 + Z.to_nat 0 + Z.to_nat 1 + Z.to_nat 0 + Z.to_nat (-3)
        + Z.to_nat 1)%nat
  /\ exists losers winner m',
       main_simulation 2 1 0 1 0 (-3) 1 10 (-10) (mkMemory (fresh_world []) 0%nat)
       = Returns (mkSetUp (losers ++ [winner]) [winner], m')
       /\ losers ++ [winner]
          ≡ₚ seq (next (mkMemory (fresh_world []) 0%nat))
               (Z.to_nat 2 + Z.to_nat 1 + Z.to_nat 0 + Z.to_nat 1 + Z.to_nat 0
                + Z.to_nat (-3) + Z.to_nat 1)
       /\ NoDup (losers ++ [winner])
       /\ (forall l, l ∈ losers -> elim (heap (world m') l) = true)
       /\ elim (heap (world m') winner) = false
       /\ (forall l, l ∈ losers ++ [winner] -> elim_round (heap (world m') l) = 0)
       /\ (forall l, (l < next (mkMemory (fresh_world []) 0%nat))%nat ->
           heap (world m') l = heap (world (mkMemory (fresh_world []) 0%nat)) l).
Proof.
  split; [cbn; lia|].
  apply (main_simulation_result 2 1 0 1 0 (-3) 1 10 (-10) (mkMemory (fresh_world []) 0%nat)).
  cbn. lia.
Defined.
